(** * Tic-Tac-Toe: board, win detection, minimax engine and turn controller

    A shallow embedding of [tic_tac_toe.py] (classes [Board], [AI] and the
    game-logic part of [Game]) together with the properties of its
    specification.

    Conventions of the embedding.
    - A cell is [Optional[str]]: [None], or [Some s] for the Python string [s].
      Marks are ordinary strings, as in the source; ['X'] and ['O'] are the two
      the game uses.
    - The [cells] list is a Python list: reading or writing an index that is not
      below its length raises [IndexError].  Every indexed access below goes
      through [getitem]/[setitem], which return [Raise IndexError] there.
    - Python integers are unbounded: they are [Z].  Indices taken from the
      constant table [WIN_COMBINATIONS] and from [range(9)] are [nat].
    - [pygame.time.get_ticks()] is an input [now : Z] of the operations that
      read the clock; sounds and drawing are left out. *)

From Stdlib Require Import ZArith String Ascii Bool Lia.
From stdpp Require Import functions gmap strings list.

(** * Part I: the program and the vocabulary of its properties *)

(** ** Python results: a value, or a raised exception *)

Inductive exn : Type :=
| IndexError
| KeyError
| OutOfFuel.   (* only the fuel of [minimax_fuel]; [_minimax] never meets it *)

Inductive result (A : Type) : Type :=
| Ok (a : A)
| Raise (e : exn).

Arguments Ok {A} a.
Arguments Raise {A} e.

#[global] Instance result_ret : MRet result := fun A a => Ok a.
#[global] Instance result_bind : MBind result := fun A B f m =>
  match m with
  | Ok a => f a
  | Raise e => Raise e
  end.
#[global] Instance result_fmap : FMap result := fun A B f m =>
  match m with
  | Ok a => Ok (f a)
  | Raise e => Raise e
  end.

(** ** Constants *)

Definition PLAYER_X : string := "X"%string.
Definition PLAYER_O : string := "O"%string.

Abbreviation triple := (nat * nat * nat)%type.

Definition WIN_COMBINATIONS : list triple :=
  [ (0, 1, 2); (3, 4, 5); (6, 7, 8);
    (0, 3, 6); (1, 4, 7); (2, 5, 8);
    (0, 4, 8); (2, 4, 6) ].
#[global] Arguments WIN_COMBINATIONS : simpl never.

(** ** Cells and Python's list indexing *)

Abbreviation cell := (option string).

(** [l[i]] *)
Definition getitem (l : list cell) (i : nat) : result cell :=
  match l !! i with
  | Some c => Ok c
  | None => Raise IndexError
  end.

(** [l[i] = x] *)
Definition setitem (l : list cell) (i : nat) (x : cell) : result (list cell) :=
  if i <? length l then Ok (<[i := x]> l) else Raise IndexError.

(** Truth value of a cell in a condition: [None] and the empty string are
    false, every other string is true. *)
Definition truthy (c : cell) : bool :=
  match c with
  | Some s => negb (String.eqb s ""%string)
  | None => false
  end.

(** [c1 == c2] on [Optional[str]] *)
Definition cell_eqb (c1 c2 : cell) : bool :=
  match c1, c2 with
  | Some s1, Some s2 => String.eqb s1 s2
  | None, None => true
  | _, _ => false
  end.

(** [c is None] *)
Definition is_none (c : cell) : bool :=
  match c with
  | None => true
  | Some _ => false
  end.

(** [all(c is not None for c in cells)] *)
Definition all_not_none (cells : list cell) : bool :=
  forallb (fun c => negb (is_none c)) cells.

(** ** Board *)

Record Board : Type := mkBoard {
  cells : list cell;
  anim : gmap nat Z;                  (* idx -> {'start': ticks} *)
  winning_combo : option triple;
  win_anim_start : option Z
}.

Definition Board_init : Board :=
  {| cells := replicate 9 None; anim := ∅;
     winning_combo := None; win_anim_start := None |}.

Definition reset (b : Board) : Board :=
  {| cells := replicate 9 None; anim := ∅;
     winning_combo := None; win_anim_start := None |}.

(** [Board.place]; [idx] is any Python integer. *)
Definition place (b : Board) (now : Z) (idx : Z) (mark : string)
  : result (Board * bool) :=
  if ((0 <=? idx)%Z && (idx <? 9)%Z)%bool then
    c ← getitem (cells b) (Z.to_nat idx);
    if is_none c then
      cs ← setitem (cells b) (Z.to_nat idx) (Some mark);
      Ok ({| cells := cs;
             anim := <[Z.to_nat idx := now]> (anim b);
             winning_combo := winning_combo b;
             win_anim_start := win_anim_start b |}, true)
    else Ok (b, false)
  else Ok (b, false).

(** The [for a, b, c in WIN_COMBINATIONS] loop of [Board.winner]: the first
    combination whose test succeeds, with the mark [cells[a]].  The test
    [cells[a] and cells[a] == cells[b] == cells[c]] reads [cells[b]] only when
    [cells[a]] is true and [cells[c]] only when the first comparison holds. *)
Fixpoint winner_loop (cs : list cell) (combos : list triple)
  : result (option (cell * triple)) :=
  match combos with
  | [] => Ok None
  | (a, b, c) :: rest =>
      ca ← getitem cs a;
      if truthy ca then
        cb ← getitem cs b;
        if cell_eqb ca cb then
          cc ← getitem cs c;
          if cell_eqb cb cc then Ok (Some (ca, (a, b, c)))
          else winner_loop cs rest
        else winner_loop cs rest
      else winner_loop cs rest
  end.

(** [Board.winner], on the cell list it reads. *)
Definition winner (cs : list cell) : result (cell * option triple) :=
  r ← winner_loop cs WIN_COMBINATIONS;
  match r with
  | Some (m, t) => Ok (m, Some t)
  | None =>
      if all_not_none cs then Ok (Some "Draw"%string, None)
      else Ok (None, None)
  end.

(** ** AI *)

Record AI : Type := mkAI {
  ai_mark : string;
  human_mark : string;
  difficulty : string       (* 'Easy', 'Medium', 'Impossible' *)
}.

(** [AI._check_winner] *)
Fixpoint check_winner_loop (board : list cell) (combos : list triple)
  : result (option cell) :=
  match combos with
  | [] => Ok None
  | (a, b, c) :: rest =>
      ca ← getitem board a;
      if truthy ca then
        cb ← getitem board b;
        if cell_eqb ca cb then
          cc ← getitem board c;
          if cell_eqb cb cc then Ok (Some ca)
          else check_winner_loop board rest
        else check_winner_loop board rest
      else check_winner_loop board rest
  end.

Definition _check_winner (board : list cell) : result cell :=
  r ← check_winner_loop board WIN_COMBINATIONS;
  match r with
  | Some m => Ok m
  | None =>
      if all_not_none board then Ok (Some "Draw"%string)
      else Ok None
  end.

(** What [_minimax] hands back: [(value, move)], and the state of the list
    object [board] it was given, which it writes to and restores. *)
Abbreviation search_result := ((Z * option nat) * list cell)%type.

(** The maximizing [for i in range(9)] loop, from the indices still to visit.
    [rec b alpha beta] is the call
    [self._minimax(board, False, alpha, beta, depth + 1, max_depth)] on the
    list in state [b]. *)
Fixpoint max_loop (self : AI) (rec : list cell -> Z -> Z -> result search_result)
    (idxs : list nat) (board : list cell)
    (best_val : Z) (best_move : option nat) (alpha beta : Z)
  : result search_result :=
  match idxs with
  | [] => Ok ((best_val, best_move), board)
  | i :: rest =>
      c ← getitem board i;
      if is_none c then
        board1 ← setitem board i (Some (ai_mark self));
        '((val, _), board2) ← rec board1 alpha beta;
        board3 ← setitem board2 i None;
        let best_move' := if (val >? best_val)%Z then Some i else best_move in
        let best_val' := if (val >? best_val)%Z then val else best_val in
        let alpha' := Z.max alpha best_val' in
        if (beta <=? alpha')%Z then Ok ((best_val', best_move'), board3)
        else max_loop self rec rest board3 best_val' best_move' alpha' beta
      else max_loop self rec rest board best_val best_move alpha beta
  end.

(** The minimizing loop; [rec] is the call with [is_max = True]. *)
Fixpoint min_loop (self : AI) (rec : list cell -> Z -> Z -> result search_result)
    (idxs : list nat) (board : list cell)
    (best_val : Z) (best_move : option nat) (alpha beta : Z)
  : result search_result :=
  match idxs with
  | [] => Ok ((best_val, best_move), board)
  | i :: rest =>
      c ← getitem board i;
      if is_none c then
        board1 ← setitem board i (Some (human_mark self));
        '((val, _), board2) ← rec board1 alpha beta;
        board3 ← setitem board2 i None;
        let best_move' := if (val <? best_val)%Z then Some i else best_move in
        let best_val' := if (val <? best_val)%Z then val else best_val in
        let beta' := Z.min beta best_val' in
        if (beta' <=? alpha)%Z then Ok ((best_val', best_move'), board3)
        else min_loop self rec rest board3 best_val' best_move' alpha beta'
      else min_loop self rec rest board best_val best_move alpha beta
  end.

(** [range(9)] *)
Definition range9 : list nat := seq 0 9.
#[global] Arguments range9 : simpl never.

(** [AI._minimax], with a bound [fuel] on the nesting of recursive calls. *)
Fixpoint minimax_fuel (fuel : nat) (self : AI) (board : list cell) (is_max : bool)
    (alpha beta depth max_depth : Z) : result search_result :=
  w ← _check_winner board;
  if cell_eqb w (Some (ai_mark self)) then Ok ((100 - depth, None), board)%Z
  else if cell_eqb w (Some (human_mark self)) then Ok ((-100 + depth, None), board)%Z
  else if cell_eqb w (Some "Draw"%string) then Ok ((0, None), board)%Z
  else if (depth >=? max_depth)%Z then Ok ((0, None), board)%Z
  else
    match fuel with
    | 0 => Raise OutOfFuel
    | S fuel' =>
        if is_max then
          max_loop self
            (fun b a' b' => minimax_fuel fuel' self b false a' b' (depth + 1) max_depth)
            range9 board (-9999)%Z None alpha beta
        else
          min_loop self
            (fun b a' b' => minimax_fuel fuel' self b true a' b' (depth + 1) max_depth)
            range9 board 9999%Z None alpha beta
    end.

(** [AI._minimax].  Every recursive call raises [depth] by one and a call with
    [depth >= max_depth] makes none, so [max_depth - depth] nested calls are
    all there can be (lemmas [minimax_fuel_enough] and
    [minimax_never_out_of_fuel]). *)
Definition _minimax (self : AI) (board : list cell) (is_max : bool)
    (alpha beta depth max_depth : Z) : result search_result :=
  minimax_fuel (Z.to_nat (max_depth - depth)) self board is_max
    alpha beta depth max_depth.

(** The draws from the [random] module that one call of [best_move] can make:
    whether [random.random() < 0.35], and the position [random.choice] selects
    (reduced modulo the length of its argument). *)
Record Rand : Type := mkRand {
  coin : bool;
  pick : nat
}.

(** [random.choice(l)]; raises [IndexError] on an empty list. *)
Definition random_choice (rnd : Rand) (l : list nat) : result nat :=
  match l !! (pick rnd mod length l) with
  | Some x => Ok x
  | None => Raise IndexError
  end.

(** [[i for i, c in enumerate(cells) if c is None]], counting from [i]. *)
Fixpoint available_from (i : nat) (cells : list cell) : list nat :=
  match cells with
  | [] => []
  | c :: rest =>
      if is_none c then i :: available_from (S i) rest
      else available_from (S i) rest
  end.

(** [AI.best_move].  [cells[:]] is a fresh list with the contents of [cells];
    the search works on that copy. *)
Definition best_move (self : AI) (rnd : Rand) (cells : list cell)
  : result (option nat) :=
  let available := available_from 0 cells in
  match available with
  | [] => Ok None
  | _ :: _ =>
      if String.eqb (difficulty self) "Easy" then
        Some <$> random_choice rnd available
      else if String.eqb (difficulty self) "Medium" then
        if coin rnd then Some <$> random_choice rnd available
        else
          '((_, move), _) ← _minimax self cells true (-9999)%Z 9999%Z 0%Z 4%Z;
          match move with
          | Some m => Ok (Some m)
          | None => Some <$> random_choice rnd available
          end
      else
        '((_, move), _) ← _minimax self cells true (-9999)%Z 9999%Z 0%Z 9%Z;
        Ok move
  end.

(** ** List objects

    [best_move] receives a reference to a list and [_minimax] writes to the
    list it is given.  To speak about which list object is written, lists live
    in a heap: [obj h a] is the state of the list at address [a], and
    addresses from [next h] on are free. *)

Record heap : Type := mkHeap {
  obj : nat → list cell;
  next : nat
}.

Definition alloc (h : heap) (l : list cell) : nat * heap :=
  (next h, {| obj := <[next h := l]> (obj h); next := S (next h) |}).

Definition store (h : heap) (a : nat) (l : list cell) : heap :=
  {| obj := <[a := l]> (obj h); next := next h |}.

(** [l[:]] for the list [l] at address [p]: a new list object. *)
Definition copy_list (h : heap) (p : nat) : nat * heap :=
  alloc h (obj h p).

(** [_minimax] called on the list object at address [q]. *)
Definition _minimax_in (self : AI) (h : heap) (q : nat) (is_max : bool)
    (alpha beta depth max_depth : Z) : result ((Z * option nat) * heap) :=
  '(r, l) ← _minimax self (obj h q) is_max alpha beta depth max_depth;
  Ok (r, store h q l).

(** [AI.best_move] called with the list object at address [p]. *)
Definition best_move_in (self : AI) (rnd : Rand) (h : heap) (p : nat)
  : result (option nat * heap) :=
  let available := available_from 0 (obj h p) in
  match available with
  | [] => Ok (None, h)
  | _ :: _ =>
      if String.eqb (difficulty self) "Easy" then
        m ← random_choice rnd available; Ok (Some m, h)
      else if String.eqb (difficulty self) "Medium" then
        if coin rnd then m ← random_choice rnd available; Ok (Some m, h)
        else
          let '(q, h1) := copy_list h p in
          '((_, move), h2) ← _minimax_in self h1 q true (-9999)%Z 9999%Z 0%Z 4%Z;
          match move with
          | Some m => Ok (Some m, h2)
          | None => m ← random_choice rnd available; Ok (Some m, h2)
          end
      else
        let '(q, h1) := copy_list h p in
        '((_, move), h2) ← _minimax_in self h1 q true (-9999)%Z 9999%Z 0%Z 9%Z;
        Ok (move, h2)
  end.

(** The call [self.ai.best_move(self.board.cells[:])] of [Game.ai_turn], with
    the board's list at address [p]. *)
Definition ai_turn_best_move (self : AI) (rnd : Rand) (h : heap) (p : nat)
  : result (option nat * heap) :=
  let '(q, h1) := copy_list h p in
  best_move_in self rnd h1 q.

(** ** Win combinations on a board *)

(** The three cells of [t] hold the same mark [m] (a non-empty string: the
    cells are occupied and equal). *)
Definition uniform (cs : list cell) (t : triple) (m : string) : Prop :=
  m ≠ ""%string ∧
  cs !! t.1.1 = Some (Some m) ∧ cs !! t.1.2 = Some (Some m) ∧
  cs !! t.2 = Some (Some m).

Definition complete (cs : list cell) (t : triple) : Prop :=
  ∃ m, uniform cs t m.

Definition in_bounds (n : nat) (t : triple) : Prop :=
  t.1.1 < n ∧ t.1.2 < n ∧ t.2 < n.

(** ** The search as a function of the board contents

    On a nine-cell list no access of [_minimax] is out of range and every
    hypothetical mark is taken back, so the search is a function of the
    contents of the list: [ab_search], with [n] the number of plies left before
    the cutoff ([max_depth - depth]). *)

Definition outcome (board : list cell) : cell :=
  match _check_winner board with
  | Ok w => w
  | Raise _ => None
  end.

Fixpoint ab_max_loop (self : AI) (rec : list cell → Z → Z → Z)
    (idxs : list nat) (board : list cell)
    (best_val : Z) (best_move : option nat) (alpha beta : Z) : Z * option nat :=
  match idxs with
  | [] => (best_val, best_move)
  | i :: rest =>
      match board !! i with
      | Some None =>
          let val := rec (<[i := Some (ai_mark self)]> board) alpha beta in
          let best_move' := if (val >? best_val)%Z then Some i else best_move in
          let best_val' := if (val >? best_val)%Z then val else best_val in
          let alpha' := Z.max alpha best_val' in
          if (beta <=? alpha')%Z then (best_val', best_move')
          else ab_max_loop self rec rest board best_val' best_move' alpha' beta
      | _ => ab_max_loop self rec rest board best_val best_move alpha beta
      end
  end.

Fixpoint ab_min_loop (self : AI) (rec : list cell → Z → Z → Z)
    (idxs : list nat) (board : list cell)
    (best_val : Z) (best_move : option nat) (alpha beta : Z) : Z * option nat :=
  match idxs with
  | [] => (best_val, best_move)
  | i :: rest =>
      match board !! i with
      | Some None =>
          let val := rec (<[i := Some (human_mark self)]> board) alpha beta in
          let best_move' := if (val <? best_val)%Z then Some i else best_move in
          let best_val' := if (val <? best_val)%Z then val else best_val in
          let beta' := Z.min beta best_val' in
          if (beta' <=? alpha)%Z then (best_val', best_move')
          else ab_min_loop self rec rest board best_val' best_move' alpha beta'
      | _ => ab_min_loop self rec rest board best_val best_move alpha beta
      end
  end.

Fixpoint ab_search (n : nat) (self : AI) (board : list cell) (is_max : bool)
    (alpha beta depth : Z) : Z * option nat :=
  let w := outcome board in
  if cell_eqb w (Some (ai_mark self)) then (100 - depth, None)%Z
  else if cell_eqb w (Some (human_mark self)) then (-100 + depth, None)%Z
  else if cell_eqb w (Some "Draw"%string) then (0, None)%Z
  else
    match n with
    | 0 => (0, None)%Z
    | S n' =>
        if is_max then
          ab_max_loop self
            (λ b a' b', (ab_search n' self b false a' b' (depth + 1)).1)
            range9 board (-9999)%Z None alpha beta
        else
          ab_min_loop self
            (λ b a' b', (ab_search n' self b true a' b' (depth + 1)).1)
            range9 board 9999%Z None alpha beta
    end.

(** A call that, when it returns, leaves the list it was given in the state it
    found it in. *)
Definition restoring (rec : list cell → Z → Z → result search_result) : Prop :=
  ∀ b a' b' r b1, rec b a' b' = Ok (r, b1) → b1 = b.

(** ** The two marks as cells, and the engine of [Game] *)

Definition X : cell := Some PLAYER_X.
Definition O : cell := Some PLAYER_O.
Definition impossible_ai : AI := mkAI PLAYER_O PLAYER_X "Impossible".

(** ** Games against the engine at difficulty Impossible

    The opponent plays X and moves first; the engine plays O.  A game is a
    sequence of positions of a [Board]: the opponent makes any legal [place],
    the engine answers as [Game.ai_turn] does, with
    [best_move(self.board.cells[:])] followed by [place(move, PLAYER_O)] when a
    move is returned and by nothing otherwise.  Nobody moves once [winner]
    reports a result. *)

Definition in_progress (cs : list cell) : Prop := winner cs = Ok (None, None).

Definition step_opponent (b b' : Board) : Prop :=
  in_progress (cells b) ∧
  ∃ now idx, place b now idx PLAYER_X = Ok (b', true).

Definition step_engine (b b' : Board) : Prop :=
  in_progress (cells b) ∧
  ∃ rnd now,
    (∃ j r, best_move impossible_ai rnd (cells b) = Ok (Some j) ∧
            place b now (Z.of_nat j) PLAYER_O = Ok (b', r)) ∨
    (best_move impossible_ai rnd (cells b) = Ok None ∧ b' = b).

(** [game_from t b t' b']: from position [b], with the engine to move iff
    [t], play can lead to position [b'] with the engine to move iff [t']. *)
Inductive game_from : bool → Board → bool → Board → Prop :=
| game_here t b : game_from t b t b
| game_opponent b b1 t' b' :
    step_opponent b b1 → game_from true b1 t' b' → game_from false b t' b'
| game_engine b b1 t' b' :
    step_engine b b1 → game_from false b1 t' b' → game_from true b t' b'.

(** *** Deciding what the theorem asks of one position *)

Definition holds (cs : list cell) (i : nat) (m : string) : bool :=
  match cs !! i with
  | Some (Some s) => String.eqb s m
  | _ => false
  end.

Definition has_triple (cs : list cell) (m : string) : bool :=
  existsb (λ t : triple, holds cs t.1.1 m && holds cs t.1.2 m && holds cs t.2 m)
    WIN_COMBINATIONS.

(** The result is one the engine accepts: no result yet, a draw, or a win of
    the engine's mark. *)
Definition result_ok (r : result (cell * option triple)) : bool :=
  match r with
  | Ok (None, None) => true
  | Ok (Some m, None) => String.eqb m "Draw"
  | Ok (Some m, Some _) => String.eqb m PLAYER_O
  | _ => false
  end.

Definition is_in_progress (cs : list cell) : bool :=
  match winner cs with
  | Ok (None, None) => true
  | _ => false
  end.

Definition rnd0 : Rand := mkRand false 0.

(** The engine, asked at [cs], names an empty cell of the grid. *)
Definition engine_answers (cs : list cell) : bool :=
  match best_move impossible_ai rnd0 cs with
  | Ok (Some j) => (j <? 9) && bool_decide (cs !! j = Some None)
  | _ => false
  end.

Definition pos_ok (t : bool) (cs : list cell) : bool :=
  negb (has_triple cs PLAYER_X) && result_ok (winner cs) &&
  (if t && is_in_progress cs then engine_answers cs else true).

(** Exhaustive exploration of the games from [cs], [fuel] plies deep. *)
Fixpoint check (fuel : nat) (t : bool) (cs : list cell) : bool :=
  pos_ok t cs &&
  (if is_in_progress cs then
     match fuel with
     | 0 => false
     | S fuel' =>
         if t then
           match best_move impossible_ai rnd0 cs with
           | Ok (Some j) => check fuel' false (<[j := Some PLAYER_O]> cs)
           | _ => false
           end
         else
           forallb (λ i, match cs !! i with
                         | Some None => check fuel' true (<[i := Some PLAYER_X]> cs)
                         | _ => true
                         end) range9
     end
   else true).

(** A game the engine wins: X 0, O 4, X 1, O 2, X 3, O 6. *)
Definition after (b : Board) (now : Z) (i : nat) (m : string) : Board :=
  {| cells := <[i := Some m]> (cells b);
     anim := <[i := now]> (anim b);
     winning_combo := winning_combo b;
     win_anim_start := win_anim_start b |}.

Definition sample_game_end : Board :=
  after (after (after (after (after (after Board_init
    0 0 PLAYER_X) 1 4 PLAYER_O) 2 1 PLAYER_X) 3 2 PLAYER_O)
    4 3 PLAYER_X) 5 6 PLAYER_O.

(** ** Minimax without pruning, and what alpha-beta returns

    [mm_value] is the minimax value of the specification: the engine's mark on
    the maximizing layers, the opponent's on the minimizing layers, the
    terminal scores and the cutoff of [_minimax], every empty cell tried and
    nothing pruned.  [n] is the number of plies left before the cutoff. *)

(** The values [f] gives to the boards that follow [board] by one [mark] in an
    empty cell among [idxs]. *)
Fixpoint child_values (f : list cell → Z) (mark : string) (board : list cell)
    (idxs : list nat) : list Z :=
  match idxs with
  | [] => []
  | i :: rest =>
      match board !! i with
      | Some None =>
          f (<[i := Some mark]> board) :: child_values f mark board rest
      | _ => child_values f mark board rest
      end
  end.

Fixpoint mm_value (n : nat) (self : AI) (board : list cell) (is_max : bool)
    (depth : Z) : Z :=
  let w := outcome board in
  if cell_eqb w (Some (ai_mark self)) then (100 - depth)%Z
  else if cell_eqb w (Some (human_mark self)) then (-100 + depth)%Z
  else if cell_eqb w (Some "Draw"%string) then 0%Z
  else
    match n with
    | 0 => 0%Z
    | S n' =>
        if is_max then
          foldr Z.max (-9999)%Z
            (child_values (λ b, mm_value n' self b false (depth + 1))
               (ai_mark self) board range9)
        else
          foldr Z.min 9999%Z
            (child_values (λ b, mm_value n' self b true (depth + 1))
               (human_mark self) board range9)
    end.

(** [v] is what a search with window [(alpha, beta)] may return at a node of
    minimax value [t]: the value itself when it lies inside the window, and a
    bound on the same side of the window otherwise. *)
Definition ab_ok (alpha beta v t : Z) : Prop :=
  ((t ≤ alpha → v ≤ alpha) ∧ (beta ≤ t → beta ≤ v) ∧
   (alpha < t < beta → v = t))%Z.

(** *** Boards that hold the two players' marks *)

Definition marks_only (self : AI) (board : list cell) : Prop :=
  ∀ i m, board !! i = Some (Some m) → m = ai_mark self ∨ m = human_mark self.

(** The value [tv] gives to [board] after the engine's mark in cell [i]. *)
Definition value_of (self : AI) (tv : list cell → Z) (board : list cell)
    (i : nat) : Z :=
  tv (<[i := Some (ai_mark self)]> board).

(** The engine of [Game] at difficulty Medium. *)
Definition medium_ai : AI := mkAI PLAYER_O PLAYER_X "Medium".

(** A decided board: X has completed the top row; cells 5 to 8 are empty. *)
Definition decided_board : list cell :=
  [X; X; X; O; O; None; None; None; None].

(** ** Game: the turn controller

    Of [Game] the fields the game logic reads and writes; fonts, sounds,
    buttons and the screen are left out.  The clock reading taken inside a
    handler is its argument [now]. *)

Record Game : Type := mkGame {
  board : Board;
  current_player : string;
  ai : AI;
  mode : string;                       (* 'menu', 'playing', 'gameover' *)
  vs_ai : bool;
  scores : gmap string Z;              (* keys 'Player', 'AI', 'Draws' *)
  game_winner : cell;                  (* self.winner *)
  game_winning_combo : option triple;  (* self.winning_combo *)
  last_move_time : Z;
  ai_delay_until : Z
}.

Definition Game_init : Game :=
  {| board := Board_init;
     current_player := PLAYER_X;
     ai := mkAI PLAYER_O PLAYER_X "Impossible";
     mode := "menu";
     vs_ai := true;
     scores := <["Player"%string := 0%Z]>
                 (<["AI"%string := 0%Z]> (<["Draws"%string := 0%Z]> ∅));
     game_winner := None;
     game_winning_combo := None;
     last_move_time := 0;
     ai_delay_until := 0 |}.

(** [reset_game], which ends in [game_over_reset]. *)
Definition reset_game (g : Game) : Game :=
  {| board := reset (board g);
     current_player := PLAYER_X;
     ai := ai g;
     mode := "playing";
     vs_ai := vs_ai g;
     scores := scores g;
     game_winner := None;
     game_winning_combo := None;
     last_move_time := last_move_time g;
     ai_delay_until := ai_delay_until g |}.

(** The menu callbacks [set_pvp] and [set_pvai]. *)
Definition set_mode_vs (g : Game) (against_ai : bool) : Game :=
  reset_game
    {| board := board g; current_player := current_player g; ai := ai g;
       mode := "playing"; vs_ai := against_ai; scores := scores g;
       game_winner := game_winner g;
       game_winning_combo := game_winning_combo g;
       last_move_time := last_move_time g;
       ai_delay_until := ai_delay_until g |}.

Definition set_pvp (g : Game) : Game := set_mode_vs g false.
Definition set_pvai (g : Game) : Game := set_mode_vs g true.

(** [d[key] += 1] *)
Definition incr (d : gmap string Z) (key : string) : result (gmap string Z) :=
  match d !! key with
  | Some v => Ok (<[key := (v + 1)%Z]> d)
  | None => Raise KeyError
  end.

(** [check_end] *)
Definition check_end (g : Game) : result Game :=
  '(w, combo) ← winner (cells (board g));
  match w with
  | None => Ok g
  | Some s =>
      let key := if String.eqb s PLAYER_X then "Player"%string
                 else if String.eqb s PLAYER_O then "AI"%string
                 else "Draws"%string in
      sc ← incr (scores g) key;
      Ok {| board := {| cells := cells (board g); anim := anim (board g);
                        winning_combo := combo;
                        win_anim_start := win_anim_start (board g) |};
            current_player := current_player g; ai := ai g;
            mode := "gameover"; vs_ai := vs_ai g; scores := sc;
            game_winner := Some s; game_winning_combo := combo;
            last_move_time := last_move_time g;
            ai_delay_until := ai_delay_until g |}
  end.

(** [handle_click_board].  Of the geometry only its outcome is kept: [hit] is
    [None] when the mouse position is outside [board_rect], and otherwise the
    [(col, row)] computed from it. *)
Definition handle_click_board (g : Game) (now : Z) (hit : option (Z * Z))
  : result Game :=
  if negb (String.eqb (mode g) "playing") then Ok g
  else
    match hit with
    | None => Ok g
    | Some (col, row) =>
        let idx := (row * 3 + col)%Z in
        if ((0 <=? idx)%Z && (idx <? 9)%Z)%bool then
          c ← getitem (cells (board g)) (Z.to_nat idx);
          if is_none c then
            '(b, placed) ← place (board g) now idx (current_player g);
            if (placed : bool) then
              g1 ← check_end
                     {| board := b; current_player := current_player g;
                        ai := ai g; mode := mode g; vs_ai := vs_ai g;
                        scores := scores g; game_winner := game_winner g;
                        game_winning_combo := game_winning_combo g;
                        last_move_time := now;
                        ai_delay_until := ai_delay_until g |};
              if negb (String.eqb (mode g1) "gameover") then
                Ok {| board := board g1;
                      current_player :=
                        if vs_ai g1 then PLAYER_O
                        else if String.eqb (current_player g1) PLAYER_X
                             then PLAYER_O else PLAYER_X;
                      ai := ai g1; mode := mode g1; vs_ai := vs_ai g1;
                      scores := scores g1; game_winner := game_winner g1;
                      game_winning_combo := game_winning_combo g1;
                      last_move_time := last_move_time g1;
                      ai_delay_until :=
                        if vs_ai g1 then (now + 340)%Z
                        else ai_delay_until g1 |}
              else Ok g1
            else
              Ok {| board := b; current_player := current_player g;
                    ai := ai g; mode := mode g; vs_ai := vs_ai g;
                    scores := scores g; game_winner := game_winner g;
                    game_winning_combo := game_winning_combo g;
                    last_move_time := last_move_time g;
                    ai_delay_until := ai_delay_until g |}
          else Ok g
        else Ok g
    end.

(** [ai_turn] *)
Definition ai_turn (g : Game) (now : Z) (rnd : Rand) : result Game :=
  if negb (vs_ai g) || negb (String.eqb (mode g) "playing") then Ok g
  else if negb (String.eqb (current_player g) PLAYER_O) then Ok g
  else if (now <? ai_delay_until g)%Z then Ok g
  else
    move ← best_move (ai g) rnd (cells (board g));
    b ← match move with
        | Some m => fst <$> place (board g) now (Z.of_nat m) PLAYER_O
        | None => Ok (board g)
        end;
    g1 ← check_end
           {| board := b; current_player := current_player g; ai := ai g;
              mode := mode g; vs_ai := vs_ai g; scores := scores g;
              game_winner := game_winner g;
              game_winning_combo := game_winning_combo g;
              last_move_time := now;
              ai_delay_until := ai_delay_until g |};
    if negb (String.eqb (mode g1) "gameover") then
      Ok {| board := board g1; current_player := PLAYER_X; ai := ai g1;
            mode := mode g1; vs_ai := vs_ai g1; scores := scores g1;
            game_winner := game_winner g1;
            game_winning_combo := game_winning_combo g1;
            last_move_time := last_move_time g1;
            ai_delay_until := ai_delay_until g1 |}
    else Ok g1.

(** The state after the menu's "Player vs AI" and a click on cell 0 at tick
    0: the mark X is placed, it is O's turn and the engine may move from
    tick 340 on. *)
Definition waiting_for_engine : result Game :=
  handle_click_board (set_pvai Game_init) 0 (Some (0, 0)%Z).

(** The fields of the state a click on the board can change, scores apart. *)
Definition view (g : Game) : list cell * string * string * bool * Z * Z :=
  (cells (board g), current_player g, mode g, vs_ai g, ai_delay_until g,
   last_move_time g).

(** A proposed move is an empty cell of the grid. *)
Definition move_ok (board : list cell) (m : option nat) : Prop :=
  match m with
  | Some i => i < 9 ∧ board !! i = Some None
  | None => True
  end.

(** ** More of [Game] *)

(** [open_menu]; the buttons it rebuilds are not part of the state kept
    here. *)
Definition open_menu (g : Game) : Game :=
  {| board := board g; current_player := current_player g; ai := ai g;
     mode := "menu"; vs_ai := vs_ai g; scores := scores g;
     game_winner := game_winner g;
     game_winning_combo := game_winning_combo g;
     last_move_time := last_move_time g;
     ai_delay_until := ai_delay_until g |}.

(** The calls that [run] and the buttons' callbacks make on the game state:
    a click handed to [handle_click_board], the [ai_turn] of a frame,
    [reset_game] (the Restart button and the key R), [open_menu] (the Menu
    button) and the two menu callbacks. *)
Inductive input : Type :=
| Click (now : Z) (hit : option (Z * Z))
| Tick (now : Z) (rnd : Rand)
| Restart
| Menu
| PvP
| PvAI.

Definition step (g : Game) (i : input) : result Game :=
  match i with
  | Click now hit => handle_click_board g now hit
  | Tick now rnd => ai_turn g now rnd
  | Restart => Ok (reset_game g)
  | Menu => Ok (open_menu g)
  | PvP => Ok (set_pvp g)
  | PvAI => Ok (set_pvai g)
  end.

Fixpoint steps (g : Game) (inputs : list input) : result Game :=
  match inputs with
  | [] => Ok g
  | i :: rest => g' ← step g i; steps g' rest
  end.

(** ** Vocabulary of the controller's properties *)

(** The three counters are present in [scores]. *)
Definition has_scores (sc : gmap string Z) : Prop :=
  is_Some (sc !! "Player"%string) ∧ is_Some (sc !! "AI"%string) ∧
  is_Some (sc !! "Draws"%string).

(** The state [__init__] builds and every handler keeps: nine cells holding
    no other mark than X and O, one of the two to move, the engine playing O
    against X, the three counters, and a board without result while a round
    is being played. *)
Definition wf_game (g : Game) : Prop :=
  length (cells (board g)) = 9 ∧
  (∀ i m, cells (board g) !! i = Some (Some m) →
          m = PLAYER_X ∨ m = PLAYER_O) ∧
  (current_player g = PLAYER_X ∨ current_player g = PLAYER_O) ∧
  ai_mark (ai g) = PLAYER_O ∧ human_mark (ai g) = PLAYER_X ∧
  has_scores (scores g) ∧
  (mode g = "playing"%string → in_progress (cells (board g))).

(** The counter [check_end] raises for the result [w] of a round. *)
Definition score_key (w : string) : string :=
  if String.eqb w PLAYER_X then "Player"
  else if String.eqb w PLAYER_O then "AI"
  else "Draws".

(** The sum of the three counters. *)
Definition total_score (sc : gmap string Z) : Z :=
  (default 0 (sc !! "Player"%string) + default 0 (sc !! "AI"%string) +
   default 0 (sc !! "Draws"%string))%Z.

(** The number of cells that hold the mark [m]. *)
Definition count_mark (cs : list cell) (m : string) : nat :=
  length (filter (λ c, c = Some m) cs).

(** Whose turn it is agrees with the marks on the board: as many X as O when
    X is to move, one X more when O is. *)
Definition turn_matches_board (g : Game) : Prop :=
  (current_player g = PLAYER_X ∧
   count_mark (cells (board g)) PLAYER_X
   = count_mark (cells (board g)) PLAYER_O) ∨
  (current_player g = PLAYER_O ∧
   count_mark (cells (board g)) PLAYER_X
   = S (count_mark (cells (board g)) PLAYER_O)).

(** The inputs that play: clicks on the board and the engine's frames. *)
Definition is_play (i : input) : bool :=
  match i with
  | Click _ _ | Tick _ _ => true
  | _ => false
  end.

(** A round of [g] is over in [g']. *)
Definition ends_round (g g' : Game) : Prop :=
  mode g = "playing"%string ∧ mode g' = "gameover"%string.

(** The state after the calls [inputs], from the state [__init__] builds. *)
Definition play (inputs : list input) : Game :=
  match steps Game_init inputs with
  | Ok g => g
  | Raise _ => Game_init
  end.

(** A two-player round after four clicks: X holds cells 0 and 1, O cells 3
    and 4, and X is to move. *)
Definition match_point : Game :=
  play [PvP; Click 1 (Some (0, 0)%Z); Click 2 (Some (0, 1)%Z);
        Click 3 (Some (1, 0)%Z); Click 4 (Some (1, 1)%Z)].

(** What a two-player game keeps: no engine, the two marks in balance, and
    the turn in agreement with the board while a round is played. *)
Definition two_player_inv (g : Game) : Prop :=
  vs_ai g = false ∧
  count_mark (cells (board g)) PLAYER_O ≤ count_mark (cells (board g)) PLAYER_X
  ∧ count_mark (cells (board g)) PLAYER_X
    ≤ S (count_mark (cells (board g)) PLAYER_O) ∧
  (mode g = "playing"%string → turn_matches_board g).

(** The human plays by the turn: a click on the board comes only when X is
    to move, and the two-player mode is not chosen. *)
Definition by_the_turn (g : Game) (i : input) : bool :=
  match i with
  | Click _ _ => String.eqb (current_player g) PLAYER_X
  | PvP => false
  | _ => true
  end.

Fixpoint played_by_the_turn (g : Game) (inputs : list input) : Prop :=
  match inputs with
  | [] => True
  | i :: rest =>
      by_the_turn g i = true ∧
      match step g i with
      | Ok g' => played_by_the_turn g' rest
      | Raise _ => False
      end
  end.

(** What a session against the engine keeps: the engine of [__init__], and a
    board that belongs to a game explored by [check], with the turn that
    game has. *)
Definition engine_inv (g : Game) : Prop :=
  wf_game g ∧ vs_ai g = true ∧ ai g = impossible_ai ∧
  ∃ fuel t,
    check fuel t (cells (board g)) = true ∧
    (mode g = "playing"%string →
     current_player g = if t : bool then PLAYER_O else PLAYER_X).

(** * Part II: properties *)

(** ** Cells and indexing *)

Lemma cell_eqb_eq (c1 c2 : cell) : cell_eqb c1 c2 = true ↔ c1 = c2.
Proof.
  destruct c1 as [s1|], c2 as [s2|]; simpl; try (split; congruence).
  rewrite String.eqb_eq. split; congruence.
Qed.

Lemma cell_eqb_refl (c : cell) : cell_eqb c c = true.
Proof. by apply cell_eqb_eq. Qed.

Lemma cell_eqb_neq (c1 c2 : cell) : cell_eqb c1 c2 = false ↔ c1 ≠ c2.
Proof.
  rewrite <- cell_eqb_eq. destruct (cell_eqb c1 c2); split; congruence.
Qed.

Lemma truthy_true (c : cell) :
  truthy c = true ↔ ∃ m, c = Some m ∧ m ≠ ""%string.
Proof.
  destruct c as [s|]; simpl.
  - rewrite negb_true_iff, String.eqb_neq. split.
    + intros H. by exists s.
    + intros (m & [= ->] & H). done.
  - split; [done | intros (m & H & _); done].
Qed.

Lemma is_none_true (c : cell) : is_none c = true ↔ c = None.
Proof. destruct c; simpl; split; congruence. Qed.

Lemma getitem_Ok (l : list cell) (i : nat) (c : cell) :
  getitem l i = Ok c ↔ l !! i = Some c.
Proof. unfold getitem. destruct (l !! i); split; congruence. Qed.

Lemma getitem_lt (l : list cell) (i : nat) :
  i < length l → ∃ c, l !! i = Some c ∧ getitem l i = Ok c.
Proof.
  intros H. destruct (lookup_lt_is_Some_2 l i H) as [c Hc].
  exists c. split; [done|]. by apply getitem_Ok.
Qed.

Lemma setitem_lt (l : list cell) (i : nat) (x : cell) :
  i < length l → setitem l i x = Ok (<[i := x]> l).
Proof.
  intros H. unfold setitem.
  destruct (Nat.ltb_spec i (length l)); [done | lia].
Qed.

Lemma setitem_Ok (l l' : list cell) (i : nat) (x : cell) :
  setitem l i x = Ok l' → i < length l ∧ l' = <[i := x]> l.
Proof.
  unfold setitem. destruct (Nat.ltb_spec i (length l)); [|done].
  by intros [= <-].
Qed.

Lemma all_not_none_true (cs : list cell) :
  all_not_none cs = true ↔ ∀ i, cs !! i ≠ Some None.
Proof.
  unfold all_not_none. induction cs as [|c cs IH]; simpl.
  - split; [intros _ i; by rewrite lookup_nil | done].
  - rewrite andb_true_iff, IH. split.
    + intros [Hc Hcs] [|i]; simpl; [|apply Hcs].
      destruct c; [congruence | done].
    + intros H. split.
      * specialize (H 0). destruct c; [done | by exfalso; apply H].
      * intros i. apply (H (S i)).
Qed.

Lemma all_not_none_false (cs : list cell) :
  all_not_none cs = false ↔ ∃ i, cs !! i = Some None.
Proof.
  unfold all_not_none. induction cs as [|c cs IH]; simpl.
  - split; [done | intros [i H]; by rewrite lookup_nil in H].
  - rewrite andb_false_iff, IH. split.
    + intros [Hc | [i Hi]].
      * exists 0. destruct c; [done | reflexivity].
      * by exists (S i).
    + intros [[|i] Hi]; simpl in Hi.
      * left. by injection Hi as ->.
      * right. by exists i.
Qed.

(** ** [Board.winner] *)

Lemma WIN_COMBINATIONS_in_bounds : Forall (in_bounds 9) WIN_COMBINATIONS.
Proof. unfold WIN_COMBINATIONS, in_bounds. repeat constructor; simpl; lia. Qed.

(** One iteration of the scan, in the two ways it can go. *)
Lemma winner_loop_hit cs a b c rest m :
  uniform cs (a, b, c) m →
  winner_loop cs ((a, b, c) :: rest) = Ok (Some (Some m, (a, b, c))).
Proof.
  intros (Hm & Ha & Hb & Hc). simpl in *.
  unfold getitem. rewrite Ha. simpl.
  apply String.eqb_neq in Hm. rewrite Hm. simpl.
  rewrite Hb. simpl. rewrite String.eqb_refl.
  rewrite Hc. simpl. by rewrite String.eqb_refl.
Qed.

Lemma winner_loop_miss cs a b c rest :
  in_bounds (length cs) (a, b, c) → ¬ complete cs (a, b, c) →
  winner_loop cs ((a, b, c) :: rest) = winner_loop cs rest.
Proof.
  intros (Ha & Hb & Hc) Hn. simpl in *.
  destruct (getitem_lt cs a Ha) as (ca & Hca & ->).
  destruct (getitem_lt cs b Hb) as (cb & Hcb & ->).
  destruct (getitem_lt cs c Hc) as (cc & Hcc & ->). simpl.
  destruct (truthy ca) eqn:Ht; [|done].
  destruct (cell_eqb ca cb) eqn:Hab; [|done].
  destruct (cell_eqb cb cc) eqn:Hbc; [|done].
  apply truthy_true in Ht as (m & -> & Hm).
  apply cell_eqb_eq in Hab as <-. apply cell_eqb_eq in Hbc as <-.
  exfalso. apply Hn. exists m. by repeat split.
Qed.

Lemma winner_loop_none cs combos :
  Forall (in_bounds (length cs)) combos →
  Forall (λ t, ¬ complete cs t) combos →
  winner_loop cs combos = Ok None.
Proof.
  induction combos as [|[[a b] c] rest IH]; intros Hb Hn; [done|].
  apply Forall_cons in Hb as [Hb1 Hb2]. apply Forall_cons in Hn as [Hn1 Hn2].
  rewrite winner_loop_miss by done. by apply IH.
Qed.

Lemma winner_loop_first cs pre t post m :
  Forall (in_bounds (length cs)) pre →
  Forall (λ t', ¬ complete cs t') pre →
  uniform cs t m →
  winner_loop cs (pre ++ t :: post) = Ok (Some (Some m, t)).
Proof.
  induction pre as [|[[a b] c] rest IH]; intros Hb Hn Hu.
  - destruct t as [[a b] c]. by apply winner_loop_hit.
  - apply Forall_cons in Hb as [Hb1 Hb2]. apply Forall_cons in Hn as [Hn1 Hn2].
    rewrite <- app_comm_cons. rewrite winner_loop_miss by done. by apply IH.
Qed.

(** C1. On a 9-cell board [winner] returns [(mark, triple)] for the first
    triple of [WIN_COMBINATIONS] -- rows (0,1,2),(3,4,5),(6,7,8), columns
    (0,3,6),(1,4,7),(2,5,8), diagonals (0,4,8),(2,4,6), in this order -- whose
    three cells hold one and the same mark; when no triple does it returns
    [('Draw', None)] if every cell is occupied and [(None, None)] otherwise. *)
Theorem winner_first_match (cs : list cell) :
  length cs = 9 →
  WIN_COMBINATIONS =
    [ (0, 1, 2); (3, 4, 5); (6, 7, 8); (0, 3, 6); (1, 4, 7); (2, 5, 8);
      (0, 4, 8); (2, 4, 6) ] ∧
  (∀ pre t post m,
      WIN_COMBINATIONS = pre ++ t :: post →
      Forall (λ t', ¬ complete cs t') pre →
      uniform cs t m →
      winner cs = Ok (Some m, Some t)) ∧
  (Forall (λ t, ¬ complete cs t) WIN_COMBINATIONS →
   (∀ i, i < 9 → ∃ m, cs !! i = Some (Some m)) →
   winner cs = Ok (Some "Draw"%string, None)) ∧
  (Forall (λ t, ¬ complete cs t) WIN_COMBINATIONS →
   (∃ i, i < 9 ∧ cs !! i = Some None) →
   winner cs = Ok (None, None)).
Proof.
  intros Hlen. pose proof WIN_COMBINATIONS_in_bounds as Hb.
  rewrite <- Hlen in Hb. split; [done|]. split; [|split].
  - intros pre t post m Heq Hn Hu. unfold winner. rewrite Heq.
    rewrite Heq in Hb. apply Forall_app in Hb as [Hb _].
    by rewrite (winner_loop_first cs pre t post m).
  - intros Hn Hocc. unfold winner. rewrite winner_loop_none by done. simpl.
    assert (all_not_none cs = true) as ->; [|done].
    apply all_not_none_true. intros i Hi.
    assert (i < 9) as Hlt by (apply lookup_lt_Some in Hi; lia).
    destruct (Hocc i Hlt) as [m Hm]. congruence.
  - intros Hn (i & Hi & Hnone). unfold winner.
    rewrite winner_loop_none by done. simpl.
    assert (all_not_none cs = false) as ->; [|done].
    apply all_not_none_false. by exists i.
Qed.

Lemma winner_first_match_witness :
  winner [Some "X"; Some "O"; None; Some "O"; Some "O"; Some "O";
          Some "X"; Some "X"; Some "X"]%string
  = Ok (Some "O"%string, Some (3, 4, 5)).
Proof.
  apply (proj1 (proj2 (winner_first_match
           [Some "X"; Some "O"; None; Some "O"; Some "O"; Some "O";
            Some "X"; Some "X"; Some "X"]%string eq_refl))
           [(0, 1, 2)] (3, 4, 5) [(6, 7, 8); (0, 3, 6); (1, 4, 7); (2, 5, 8);
                                  (0, 4, 8); (2, 4, 6)]).
  - reflexivity.
  - constructor; [|constructor].
    intros (m & _ & H0 & H1 & _). simpl in *. congruence.
  - by repeat split.
Defined.

(** ** [Board.place] *)

(** The cell list of a [Board] always has nine entries. *)
Lemma Board_init_length : length (cells Board_init) = 9.
Proof. reflexivity. Qed.

Lemma reset_length (b : Board) : length (cells (reset b)) = 9.
Proof. reflexivity. Qed.

Lemma place_length (b b' : Board) now idx mark r :
  place b now idx mark = Ok (b', r) → length (cells b') = length (cells b).
Proof.
  unfold place. destruct (_ && _); [|by intros [= <- _]].
  unfold getitem. destruct (cells b !! Z.to_nat idx) as [c|]; [|done]. simpl.
  destruct (is_none c); [|by intros [= <- _]].
  unfold setitem. destruct (_ <? _); [|done]. simpl.
  intros [= <- _]. simpl. apply length_insert.
Qed.

Lemma place_fails (b : Board) now idx mark :
  length (cells b) = 9 →
  (idx < 0 ∨ 9 ≤ idx ∨ ∃ m, cells b !! Z.to_nat idx = Some (Some m))%Z →
  place b now idx mark = Ok (b, false).
Proof.
  intros Hlen H. unfold place.
  destruct (Z.leb_spec 0 idx); simpl; [|done].
  destruct (Z.ltb_spec idx 9); simpl; [|done].
  destruct H as [H | [H | [m Hm]]]; [lia | lia |].
  unfold getitem. by rewrite Hm.
Qed.

Lemma place_succeeds (b : Board) now idx mark :
  (0 ≤ idx < 9)%Z → cells b !! Z.to_nat idx = Some None →
  place b now idx mark =
    Ok ({| cells := <[Z.to_nat idx := Some mark]> (cells b);
           anim := <[Z.to_nat idx := now]> (anim b);
           winning_combo := winning_combo b;
           win_anim_start := win_anim_start b |}, true).
Proof.
  intros Hidx Hc. unfold place.
  destruct (Z.leb_spec 0 idx); [|lia].
  destruct (Z.ltb_spec idx 9); [|lia]. simpl.
  unfold getitem. rewrite Hc. simpl.
  rewrite setitem_lt; [done|]. by apply lookup_lt_Some in Hc.
Qed.

(** C3. [place] returns false and changes nothing when the index is outside
    [0,8] or the cell is occupied; otherwise it returns true, the cell holds
    the mark, every other cell is as before, and a second [place] at the same
    index returns false and changes nothing. *)
Theorem place_contract (b : Board) (now : Z) (idx : Z) (mark : string) :
  length (cells b) = 9 →
  ((idx < 0 ∨ 9 ≤ idx ∨ ∃ m, cells b !! Z.to_nat idx = Some (Some m))%Z →
   place b now idx mark = Ok (b, false)) ∧
  ((0 ≤ idx < 9)%Z → cells b !! Z.to_nat idx = Some None →
   ∃ b', place b now idx mark = Ok (b', true) ∧
         length (cells b') = 9 ∧
         cells b' !! Z.to_nat idx = Some (Some mark) ∧
         (∀ j, j ≠ Z.to_nat idx → cells b' !! j = cells b !! j) ∧
         ∀ now' mark', place b' now' idx mark' = Ok (b', false)).
Proof.
  intros Hlen. split; [by apply place_fails|].
  intros Hidx Hc. eexists. split; [by apply place_succeeds|]. simpl.
  assert (Z.to_nat idx < length (cells b)) as Hlt by (by apply lookup_lt_Some in Hc).
  split; [by rewrite length_insert|].
  split; [by apply list_lookup_insert_eq|].
  split; [intros j Hj; by apply list_lookup_insert_ne|].
  intros now' mark'. apply place_fails; simpl.
  - by rewrite length_insert.
  - right. right. exists mark. by apply list_lookup_insert_eq.
Qed.

Lemma place_contract_witness :
  ∃ b', place Board_init 0 3 PLAYER_X = Ok (b', true) ∧
        cells b' !! 3 = Some (Some PLAYER_X) ∧
        place b' 1 3 PLAYER_O = Ok (b', false).
Proof.
  destruct (place_contract Board_init 0 3 PLAYER_X Board_init_length)
    as [_ H].
  destruct H as (b' & Hp & _ & Hc & _ & Hagain); [lia | reflexivity |].
  exists b'. split; [exact Hp|]. split; [exact Hc|]. apply Hagain.
Defined.

(** ** [AI._check_winner] against [Board.winner] *)

Lemma check_winner_loop_winner_loop (cs : list cell) (combos : list triple) :
  check_winner_loop cs combos = fmap (M:=option) fst <$> winner_loop cs combos.
Proof.
  induction combos as [|[[a b] c] rest IH]; [done|]. simpl.
  destruct (getitem cs a) as [ca|]; [|done]. simpl.
  destruct (truthy ca); [|done].
  destruct (getitem cs b) as [cb|]; [|done]. simpl.
  destruct (cell_eqb ca cb); [|done].
  destruct (getitem cs c) as [cc|]; [|done]. simpl.
  by destruct (cell_eqb cb cc).
Qed.

(** C10. [_check_winner] returns exactly the first component of what
    [Board.winner] returns on the same cells: the winning mark, ['Draw'] or
    [None] (and raises where [winner] raises). *)
Theorem check_winner_agrees (cs : list cell) :
  _check_winner cs = fst <$> winner cs.
Proof.
  unfold _check_winner, winner. rewrite check_winner_loop_winner_loop.
  destruct (winner_loop cs WIN_COMBINATIONS) as [[[m t]|]|]; simpl; [done| |done].
  by destruct (all_not_none cs).
Qed.

(** ** [AI._minimax]

    *** The call unfolds to itself one ply deeper *)

Lemma _minimax_unfold (self : AI) board is_max (alpha beta depth max_depth : Z) :
  _minimax self board is_max alpha beta depth max_depth =
  (w ← _check_winner board;
   if cell_eqb w (Some (ai_mark self)) then Ok ((100 - depth, None), board)%Z
   else if cell_eqb w (Some (human_mark self)) then Ok ((-100 + depth, None), board)%Z
   else if cell_eqb w (Some "Draw"%string) then Ok ((0, None), board)%Z
   else if (depth >=? max_depth)%Z then Ok ((0, None), board)%Z
   else if is_max then
     max_loop self
       (λ b a' b', _minimax self b false a' b' (depth + 1) max_depth)
       range9 board (-9999)%Z None alpha beta
   else
     min_loop self
       (λ b a' b', _minimax self b true a' b' (depth + 1) max_depth)
       range9 board 9999%Z None alpha beta).
Proof.
  unfold _minimax.
  destruct (Z.to_nat (max_depth - depth)) as [|n] eqn:Hn;
    cbn [minimax_fuel].
  - destruct (_check_winner board) as [w|]; cbn [mbind result_bind];
      [|reflexivity].
    repeat (destruct (cell_eqb w _); [reflexivity|]).
    destruct (Z.geb_spec depth max_depth); [reflexivity | lia].
  - replace (Z.to_nat (max_depth - (depth + 1))) with n by lia.
    destruct (_check_winner board) as [w|]; cbn [mbind result_bind];
      [|reflexivity].
    repeat (destruct (cell_eqb w _); [reflexivity|]).
    destruct (depth >=? max_depth)%Z; reflexivity.
Qed.

(** The loops use [rec] only through its values. *)
Lemma max_loop_ext self rec1 rec2 idxs board bv bm alpha beta :
  (∀ b a' b', rec1 b a' b' = rec2 b a' b') →
  max_loop self rec1 idxs board bv bm alpha beta =
  max_loop self rec2 idxs board bv bm alpha beta.
Proof.
  intros Hext. revert board bv bm alpha.
  induction idxs as [|i rest IH]; intros board bv bm alpha; [done|]. simpl.
  destruct (getitem board i) as [c|]; [|done]. simpl.
  destruct (is_none c); [|apply IH].
  destruct (setitem board i _) as [b1|]; [|done]. simpl.
  rewrite Hext. destruct (rec2 b1 alpha beta) as [[[val mv] b2]|]; [|done]. simpl.
  destruct (setitem b2 i None) as [b3|]; [|done]. simpl.
  destruct (_ <=? _)%Z; [done | apply IH].
Qed.

Lemma min_loop_ext self rec1 rec2 idxs board bv bm alpha beta :
  (∀ b a' b', rec1 b a' b' = rec2 b a' b') →
  min_loop self rec1 idxs board bv bm alpha beta =
  min_loop self rec2 idxs board bv bm alpha beta.
Proof.
  intros Hext. revert board bv bm beta.
  induction idxs as [|i rest IH]; intros board bv bm beta; [done|]. simpl.
  destruct (getitem board i) as [c|]; [|done]. simpl.
  destruct (is_none c); [|apply IH].
  destruct (setitem board i _) as [b1|]; [|done]. simpl.
  rewrite Hext. destruct (rec2 b1 alpha beta) as [[[val mv] b2]|]; [|done]. simpl.
  destruct (setitem b2 i None) as [b3|]; [|done]. simpl.
  destruct (_ <=? _)%Z; [done | apply IH].
Qed.

(** More fuel than [_minimax] starts with changes nothing. *)
Lemma minimax_fuel_enough (fuel : nat) self board is_max alpha beta depth max_depth :
  Z.to_nat (max_depth - depth) ≤ fuel →
  minimax_fuel fuel self board is_max alpha beta depth max_depth =
  _minimax self board is_max alpha beta depth max_depth.
Proof.
  revert board is_max alpha beta depth.
  induction fuel as [|fuel IH]; intros board is_max alpha beta depth Hle.
  - unfold _minimax. by replace (Z.to_nat (max_depth - depth)) with 0 by lia.
  - rewrite _minimax_unfold. cbn [minimax_fuel].
    destruct (_check_winner board) as [w|]; cbn [mbind result_bind];
      [|reflexivity].
    repeat (destruct (cell_eqb w _); [reflexivity|]).
    destruct (Z.geb_spec depth max_depth); [done|].
    destruct is_max; [apply max_loop_ext | apply min_loop_ext];
      intros; apply IH; lia.
Qed.

(** [_minimax] never stops for lack of fuel. *)
Lemma getitem_raises (l : list cell) (i : nat) (e : exn) :
  getitem l i = Raise e → e = IndexError.
Proof. unfold getitem. destruct (l !! i); [done | by intros [= <-]]. Qed.

Lemma setitem_raises (l : list cell) (i : nat) (x : cell) (e : exn) :
  setitem l i x = Raise e → e = IndexError.
Proof. unfold setitem. destruct (i <? length l); [done | by intros [= <-]]. Qed.

Lemma max_loop_fuel self rec idxs board bv bm alpha beta :
  (∀ b a' b', rec b a' b' ≠ Raise OutOfFuel) →
  max_loop self rec idxs board bv bm alpha beta ≠ Raise OutOfFuel.
Proof.
  intros Hrec. revert board bv bm alpha.
  induction idxs as [|i rest IH]; intros board bv bm alpha; [done|]. simpl.
  destruct (getitem board i) as [c|e] eqn:Hg; simpl;
    [|by apply getitem_raises in Hg as ->].
  destruct (is_none c); [|apply IH].
  destruct (setitem board i _) as [b1|e] eqn:Hs; simpl;
    [|by apply setitem_raises in Hs as ->].
  specialize (Hrec b1 alpha beta).
  destruct (rec b1 alpha beta) as [[[val mv] b2]|[]]; simpl; [|done..].
  destruct (setitem b2 i None) as [b3|e] eqn:Hs'; simpl;
    [|by apply setitem_raises in Hs' as ->].
  destruct (_ <=? _)%Z; [done | apply IH].
Qed.

Lemma min_loop_fuel self rec idxs board bv bm alpha beta :
  (∀ b a' b', rec b a' b' ≠ Raise OutOfFuel) →
  min_loop self rec idxs board bv bm alpha beta ≠ Raise OutOfFuel.
Proof.
  intros Hrec. revert board bv bm beta.
  induction idxs as [|i rest IH]; intros board bv bm beta; [done|]. simpl.
  destruct (getitem board i) as [c|e] eqn:Hg; simpl;
    [|by apply getitem_raises in Hg as ->].
  destruct (is_none c); [|apply IH].
  destruct (setitem board i _) as [b1|e] eqn:Hs; simpl;
    [|by apply setitem_raises in Hs as ->].
  specialize (Hrec b1 alpha beta).
  destruct (rec b1 alpha beta) as [[[val mv] b2]|[]]; simpl; [|done..].
  destruct (setitem b2 i None) as [b3|e] eqn:Hs'; simpl;
    [|by apply setitem_raises in Hs' as ->].
  destruct (_ <=? _)%Z; [done | apply IH].
Qed.

Lemma check_winner_loop_fuel (board : list cell) (combos : list triple) :
  check_winner_loop board combos ≠ Raise OutOfFuel.
Proof.
  induction combos as [|[[a b] c] rest IH]; [done|]. simpl.
  destruct (getitem board a) as [ca|e] eqn:Ha; simpl;
    [|by apply getitem_raises in Ha as ->].
  destruct (truthy ca); [|done].
  destruct (getitem board b) as [cb|e] eqn:Hb; simpl;
    [|by apply getitem_raises in Hb as ->].
  destruct (cell_eqb ca cb); [|done].
  destruct (getitem board c) as [cc|e] eqn:Hc; simpl;
    [|by apply getitem_raises in Hc as ->].
  by destruct (cell_eqb cb cc).
Qed.

Lemma minimax_never_out_of_fuel self board is_max alpha beta depth max_depth :
  _minimax self board is_max alpha beta depth max_depth ≠ Raise OutOfFuel.
Proof.
  remember (Z.to_nat (max_depth - depth)) as n eqn:Hn.
  revert board is_max alpha beta depth Hn.
  induction n as [|n IH]; intros board is_max alpha beta depth Hn;
    rewrite _minimax_unfold; unfold _check_winner;
    pose proof (check_winner_loop_fuel board WIN_COMBINATIONS) as Hw;
    (destruct (check_winner_loop board WIN_COMBINATIONS) as [r|[]];
       cbn [mbind result_bind]; [|done..]);
    set (w := match r with
              | Some m => Ok m
              | None => if all_not_none board then Ok (Some "Draw"%string)
                        else Ok None
              end);
    (assert (∃ w', w = Ok w') as [w' ->]
       by (subst w; destruct r; [|destruct (all_not_none board)]; by eexists));
    cbn [mbind result_bind];
    repeat (destruct (cell_eqb w' _); [done|]).
  - destruct (Z.geb_spec depth max_depth); [done | lia].
  - destruct (Z.geb_spec depth max_depth); [done|].
    destruct is_max; [apply max_loop_fuel | apply min_loop_fuel];
      intros; apply IH; lia.
Qed.

(** *** The search on a nine-cell list *)

Lemma check_winner_loop_total (cs : list cell) (combos : list triple) :
  Forall (in_bounds (length cs)) combos →
  ∃ r, check_winner_loop cs combos = Ok r.
Proof.
  induction combos as [|[[a b] c] rest IH]; intros Hb; [by eexists|].
  apply Forall_cons in Hb as [(Ha & Hb & Hc) Hrest]. simpl in *.
  destruct (getitem_lt cs a Ha) as (ca & _ & ->).
  destruct (getitem_lt cs b Hb) as (cb & _ & ->).
  destruct (getitem_lt cs c Hc) as (cc & _ & ->). simpl.
  destruct (truthy ca); [|by apply IH].
  destruct (cell_eqb ca cb); [|by apply IH].
  destruct (cell_eqb cb cc); [by eexists | by apply IH].
Qed.

Lemma check_winner_total (board : list cell) :
  length board = 9 → _check_winner board = Ok (outcome board).
Proof.
  intros Hlen. unfold outcome.
  assert (∃ w, _check_winner board = Ok w) as [w ->]; [|done].
  unfold _check_winner.
  destruct (check_winner_loop_total board WIN_COMBINATIONS) as [r ->].
  - rewrite Hlen. apply WIN_COMBINATIONS_in_bounds.
  - simpl. destruct r; [by eexists|]. destruct (all_not_none board); by eexists.
Qed.

(** Writing a mark into an empty cell and then [None] again gives the list
    back. *)
Lemma undo_insert (board : list cell) (i : nat) (c : cell) :
  board !! i = Some None → <[i := None]> (<[i := c]> board) = board.
Proof. intros H. rewrite list_insert_insert_eq. by apply list_insert_id. Qed.

Lemma max_loop_refines self rec prec idxs board bv bm alpha beta :
  Forall (λ i, i < length board) idxs →
  (∀ b a' b', length b = length board →
              ∃ mv, rec b a' b' = Ok ((prec b a' b', mv), b)) →
  max_loop self rec idxs board bv bm alpha beta =
  Ok (ab_max_loop self prec idxs board bv bm alpha beta, board).
Proof.
  intros Hidx Hrec. revert bv bm alpha.
  induction idxs as [|i rest IH]; intros bv bm alpha; [done|].
  apply Forall_cons in Hidx as [Hi Hrest]. simpl.
  destruct (getitem_lt board i Hi) as (c & Hc & ->). rewrite Hc. simpl.
  destruct c as [s|]; simpl; [by apply IH|].
  rewrite setitem_lt by done. simpl.
  destruct (Hrec (<[i := Some (ai_mark self)]> board) alpha beta) as [mv ->];
    [apply length_insert|]. simpl.
  rewrite setitem_lt by (by rewrite length_insert). simpl.
  rewrite undo_insert by done.
  destruct (_ <=? _)%Z; [done | by apply IH].
Qed.

Lemma min_loop_refines self rec prec idxs board bv bm alpha beta :
  Forall (λ i, i < length board) idxs →
  (∀ b a' b', length b = length board →
              ∃ mv, rec b a' b' = Ok ((prec b a' b', mv), b)) →
  min_loop self rec idxs board bv bm alpha beta =
  Ok (ab_min_loop self prec idxs board bv bm alpha beta, board).
Proof.
  intros Hidx Hrec. revert bv bm beta.
  induction idxs as [|i rest IH]; intros bv bm beta; [done|].
  apply Forall_cons in Hidx as [Hi Hrest]. simpl.
  destruct (getitem_lt board i Hi) as (c & Hc & ->). rewrite Hc. simpl.
  destruct c as [s|]; simpl; [by apply IH|].
  rewrite setitem_lt by done. simpl.
  destruct (Hrec (<[i := Some (human_mark self)]> board) alpha beta) as [mv ->];
    [apply length_insert|]. simpl.
  rewrite setitem_lt by (by rewrite length_insert). simpl.
  rewrite undo_insert by done.
  destruct (_ <=? _)%Z; [done | by apply IH].
Qed.

Lemma range9_lt : Forall (λ i, i < 9) range9.
Proof. unfold range9. simpl. repeat constructor. Qed.

(** On a nine-cell list [_minimax] returns, never raises, computes
    [ab_search], and leaves the list as it found it. *)
Lemma minimax_refines (n : nat) self board is_max alpha beta depth max_depth :
  length board = 9 → n = Z.to_nat (max_depth - depth) →
  _minimax self board is_max alpha beta depth max_depth =
  Ok (ab_search n self board is_max alpha beta depth, board).
Proof.
  revert board is_max alpha beta depth.
  induction n as [|n IH]; intros board is_max alpha beta depth Hlen Hn;
    rewrite _minimax_unfold, check_winner_total by done;
    cbn [mbind result_bind ab_search];
    repeat (destruct (cell_eqb (outcome board) _); [reflexivity|]).
  - destruct (Z.geb_spec depth max_depth); [reflexivity | lia].
  - destruct (Z.geb_spec depth max_depth); [lia|].
    destruct is_max.
    + apply max_loop_refines; [rewrite Hlen; apply range9_lt|].
      intros b a' b' Hb. eexists. rewrite (IH b false a' b' (depth + 1)%Z);
        [by rewrite <- surjective_pairing | congruence | lia].
    + apply min_loop_refines; [rewrite Hlen; apply range9_lt|].
      intros b a' b' Hb. eexists. rewrite (IH b true a' b' (depth + 1)%Z);
        [by rewrite <- surjective_pairing | congruence | lia].
Qed.

(** *** Every hypothetical mark is taken back

    Whatever the length of the list: when a call of [_minimax] returns, the
    list is in the state the call found it in.  The loops restore cell [i]
    before they test [beta <= alpha], so the [break] leaves nothing behind. *)

Lemma max_loop_restores self rec idxs board bv bm alpha beta r board' :
  restoring rec →
  max_loop self rec idxs board bv bm alpha beta = Ok (r, board') →
  board' = board.
Proof.
  intros Hrec. revert bv bm alpha.
  induction idxs as [|i rest IH]; intros bv bm alpha; simpl.
  - by intros [= _ <-].
  - destruct (getitem board i) as [c|] eqn:Hc; [|done]. simpl.
    apply getitem_Ok in Hc.
    destruct c as [s|]; simpl; [apply IH|].
    destruct (setitem board i _) as [b1|] eqn:Hs; simpl; [|done].
    apply setitem_Ok in Hs as [Hi ->].
    destruct (rec _ alpha beta) as [[[val mv] b2]|] eqn:Hr; simpl; [|done].
    apply Hrec in Hr. subst b2.
    rewrite setitem_lt by (by rewrite length_insert). simpl.
    rewrite undo_insert by done.
    destruct (_ <=? _)%Z; [by intros [= _ <-] | apply IH].
Qed.

Lemma min_loop_restores self rec idxs board bv bm alpha beta r board' :
  restoring rec →
  min_loop self rec idxs board bv bm alpha beta = Ok (r, board') →
  board' = board.
Proof.
  intros Hrec. revert bv bm beta.
  induction idxs as [|i rest IH]; intros bv bm beta; simpl.
  - by intros [= _ <-].
  - destruct (getitem board i) as [c|] eqn:Hc; [|done]. simpl.
    apply getitem_Ok in Hc.
    destruct c as [s|]; simpl; [apply IH|].
    destruct (setitem board i _) as [b1|] eqn:Hs; simpl; [|done].
    apply setitem_Ok in Hs as [Hi ->].
    destruct (rec _ alpha beta) as [[[val mv] b2]|] eqn:Hr; simpl; [|done].
    apply Hrec in Hr. subst b2.
    rewrite setitem_lt by (by rewrite length_insert). simpl.
    rewrite undo_insert by done.
    destruct (_ <=? _)%Z; [by intros [= _ <-] | apply IH].
Qed.

Lemma minimax_restores self board is_max alpha beta depth max_depth r board' :
  _minimax self board is_max alpha beta depth max_depth = Ok (r, board') →
  board' = board.
Proof.
  remember (Z.to_nat (max_depth - depth)) as n eqn:Hn.
  revert board is_max alpha beta depth r board' Hn.
  induction n as [|n IH]; intros board is_max alpha beta depth r board' Hn;
    rewrite _minimax_unfold;
    (destruct (_check_winner board) as [w|]; cbn [mbind result_bind]; [|done]);
    repeat (destruct (cell_eqb w _); [by intros [= _ <-]|]).
  - destruct (Z.geb_spec depth max_depth); [by intros [= _ <-] | lia].
  - destruct (Z.geb_spec depth max_depth); [by intros [= _ <-]|].
    destruct is_max.
    + apply max_loop_restores. intros b a' b' r0 b1. apply IH. lia.
    + apply min_loop_restores. intros b a' b' r0 b1. apply IH. lia.
Qed.

(** *** [best_move] and the list it is given *)

Lemma random_choice_Ok (rnd : Rand) (l : list nat) :
  l ≠ [] → ∃ x, random_choice rnd l = Ok x ∧ x ∈ l.
Proof.
  intros Hl. unfold random_choice.
  assert (pick rnd mod length l < length l) as Hlt.
  { apply Nat.mod_upper_bound. by destruct l. }
  destruct (lookup_lt_is_Some_2 l _ Hlt) as [x Hx]. rewrite Hx.
  exists x. split; [done|]. by eapply list_elem_of_lookup_2.
Qed.

Lemma minimax_in_frame self h q is_max alpha beta depth max_depth r h' :
  _minimax_in self h q is_max alpha beta depth max_depth = Ok (r, h') →
  _minimax self (obj h q) is_max alpha beta depth max_depth = Ok (r, obj h q) ∧
  next h' = next h ∧ ∀ a, obj h' a = obj h a.
Proof.
  unfold _minimax_in.
  destruct (_minimax self (obj h q) _ _ _ _ _) as [[r0 l]|] eqn:Hm;
    cbn [mbind result_bind]; [|done].
  intros [= <- <-]. apply minimax_restores in Hm as Hl. subst l.
  split; [done|]. split; [done|]. intros a. simpl.
  destruct (decide (q = a)) as [->|Hne].
  - by rewrite fn_lookup_insert.
  - by rewrite fn_lookup_insert_ne.
Qed.

(** What one search on a fresh copy of the list at [p] does to the heap. *)
Lemma search_on_copy_frame self h p is_max alpha beta depth max_depth r h' :
  _minimax_in self (copy_list h p).2 (copy_list h p).1
    is_max alpha beta depth max_depth = Ok (r, h') →
  _minimax self (obj h p) is_max alpha beta depth max_depth = Ok (r, obj h p) ∧
  next h' = S (next h) ∧
  (∀ a, a < next h → obj h' a = obj h a) ∧
  obj h' (next h) = obj h p.
Proof.
  intros Hm. apply minimax_in_frame in Hm as (Hm & Hnext & Hobj).
  simpl in *. rewrite fn_lookup_insert in Hm.
  split; [done|]. split; [done|]. split.
  - intros a Ha. rewrite Hobj. apply fn_lookup_insert_ne. lia.
  - rewrite Hobj. apply fn_lookup_insert.
Qed.

Lemma best_move_in_frame self rnd h p r h' :
  best_move_in self rnd h p = Ok (r, h') →
  best_move self rnd (obj h p) = Ok r ∧
  next h ≤ next h' ∧
  (∀ a, a < next h → obj h' a = obj h a) ∧
  (∀ a, next h ≤ a < next h' → obj h' a = obj h p).
Proof.
  unfold best_move_in, best_move.
  destruct (available_from 0 (obj h p)) as [|i0 av] eqn:Hav.
  { intros [= <- <-]. (split; [done|]); (split; [lia|]); (split; [done|]); intros; lia. }
  assert (∀ rr hh,
    (random_choice rnd (i0 :: av) ≫= λ m, Ok (Some m, h)) = Ok (rr, hh) →
    Some <$> random_choice rnd (i0 :: av) = Ok rr ∧ hh = h) as Hrandom.
  { intros rr hh. destruct (random_choice rnd (i0 :: av)) as [m|]; simpl;
      [|done]. by intros [= <- <-]. }
  destruct (String.eqb (difficulty self) "Easy").
  { intros Hr. apply Hrandom in Hr as [-> ->].
    (split; [done|]); (split; [lia|]); (split; [done|]); intros; lia. }
  destruct (String.eqb (difficulty self) "Medium").
  - destruct (coin rnd).
    { intros Hr. apply Hrandom in Hr as [-> ->].
      (split; [done|]); (split; [lia|]); (split; [done|]); intros; lia. }
    change (let '(q, h1) := copy_list h p in _) with
      (_minimax_in self (copy_list h p).2 (copy_list h p).1 true
         (-9999) 9999 0 4 ≫= λ '((_, move), h2),
           match move with
           | Some m => Ok (Some m, h2)
           | None => random_choice rnd (i0 :: av) ≫= λ m, Ok (Some m, h2)
           end).
    destruct (_minimax_in _ _ _ _ _ _ _ _) as [[[v mv] h2]|] eqn:Hm;
      cbn [mbind result_bind]; [|done].
    apply search_on_copy_frame in Hm as (-> & Hnext & Hold & Hnew).
    cbn [mbind result_bind]. intros Hr.
    assert (hh_eq : h' = h2 ∧
            match mv with
            | Some m => Ok (Some m)
            | None => Some <$> random_choice rnd (i0 :: av)
            end = Ok r).
    { destruct mv as [m|]; [by injection Hr as <- <-|].
      destruct (random_choice rnd (i0 :: av)) as [m|]; simpl in *; [|done].
      by injection Hr as <- <-. }
    destruct hh_eq as [-> ->]. split; [done|]. split; [lia|].
    split; [done|]. intros a Ha. by replace a with (next h) by lia.
  - change (let '(q, h1) := copy_list h p in _) with
      (_minimax_in self (copy_list h p).2 (copy_list h p).1 true
         (-9999) 9999 0 9 ≫= λ '((_, move), h2), Ok (move, h2)).
    destruct (_minimax_in _ _ _ _ _ _ _ _) as [[[v mv] h2]|] eqn:Hm;
      cbn [mbind result_bind]; [|done].
    apply search_on_copy_frame in Hm as (-> & Hnext & Hold & Hnew).
    cbn [mbind result_bind]. intros [= <- <-].
    split; [done|]. split; [lia|].
    split; [done|]. intros a Ha. by replace a with (next h) by lia.
Qed.

Lemma available_from_nil_iff (i : nat) (cs : list cell) :
  available_from i cs = [] ↔ ∀ j, cs !! j ≠ Some None.
Proof.
  revert i. induction cs as [|c cs IH]; intros i; simpl.
  - split; [intros _ j; by rewrite lookup_nil | done].
  - destruct c as [s|]; simpl.
    + rewrite IH. split.
      * intros H [|j]; simpl; [done | apply H].
      * intros H j. apply (H (S j)).
    + split; [done|]. intros H. by specialize (H 0).
Qed.

Lemma best_move_in_total self rnd h p :
  length (obj h p) = 9 → ∃ r h', best_move_in self rnd h p = Ok (r, h').
Proof.
  intros Hlen. unfold best_move_in.
  destruct (available_from 0 (obj h p)) as [|i0 av]; [by eexists _, _|].
  destruct (random_choice_Ok rnd (i0 :: av)) as (x & Hx & _); [done|].
  destruct (String.eqb (difficulty self) "Easy");
    [rewrite Hx; by eexists _, _|].
  assert (∀ md, _minimax_in self (copy_list h p).2 (copy_list h p).1 true
                  (-9999) 9999 0 md =
                Ok (ab_search (Z.to_nat (md - 0)) self (obj h p) true
                      (-9999) 9999 0,
                    store (copy_list h p).2 (copy_list h p).1 (obj h p)))
    as Hsearch.
  { intros md. unfold _minimax_in. simpl. rewrite fn_lookup_insert.
    by rewrite (minimax_refines (Z.to_nat (md - 0))). }
  destruct (String.eqb (difficulty self) "Medium").
  - destruct (coin rnd); [rewrite Hx; by eexists _, _|].
    change (let '(q, h1) := copy_list h p in _) with
      (_minimax_in self (copy_list h p).2 (copy_list h p).1 true
         (-9999) 9999 0 4 ≫= λ '((_, move), h2),
           match move with
           | Some m => Ok (Some m, h2)
           | None => random_choice rnd (i0 :: av) ≫= λ m, Ok (Some m, h2)
           end).
    rewrite Hsearch. cbn [mbind result_bind].
    destruct (ab_search _ _ _ _ _ _ _) as [v [m|]]; [by eexists _, _|].
    rewrite Hx. by eexists _, _.
  - change (let '(q, h1) := copy_list h p in _) with
      (_minimax_in self (copy_list h p).2 (copy_list h p).1 true
         (-9999) 9999 0 9 ≫= λ '((_, move), h2), Ok (move, h2)).
    rewrite Hsearch. cbn [mbind result_bind].
    destruct (ab_search _ _ _ _ _ _ _) as [v m]. by eexists _, _.
Qed.

(** C9. [best_move] leaves the list it is given as it was: on a nine-cell
    list it returns, and whenever it returns, that list and every other list
    that existed before the call are unchanged, and the working copy the
    search wrote to is back to the copied contents (each hypothetical mark
    was undone, also where the loop was left by [break]).  The same holds for
    the board's own list in the call made by [ai_turn]. *)
Theorem best_move_input_unchanged (self : AI) (rnd : Rand) (h : heap) (p : nat) :
  p < next h →
  (length (obj h p) = 9 → ∃ r h', best_move_in self rnd h p = Ok (r, h')) ∧
  (∀ r h', best_move_in self rnd h p = Ok (r, h') →
     obj h' p = obj h p ∧
     (∀ a, a < next h → obj h' a = obj h a) ∧
     (∀ a, next h ≤ a < next h' → obj h' a = obj h p)) ∧
  (∀ r h', ai_turn_best_move self rnd h p = Ok (r, h') → obj h' p = obj h p).
Proof.
  intros Hp. split; [apply best_move_in_total|]. split.
  - intros r h' Hr. apply best_move_in_frame in Hr as (_ & _ & Hold & Hnew).
    split; [by apply Hold | done].
  - intros r h' Hr. unfold ai_turn_best_move in Hr.
    change (let '(q, h1) := copy_list h p in _) with
      (best_move_in self rnd (copy_list h p).2 (copy_list h p).1) in Hr.
    apply best_move_in_frame in Hr as (_ & _ & Hold & _).
    rewrite Hold by (simpl; lia). simpl. apply fn_lookup_insert_ne. lia.
Qed.

Lemma best_move_input_unchanged_witness :
  let h := {| obj := λ _, [X; X; None; None; O; None; None; None; None];
              next := 1 |} in
  ∃ r h', best_move_in impossible_ai (mkRand false 0) h 0 = Ok (r, h') ∧
          obj h' 0 = obj h 0.
Proof.
  intros h.
  assert (0 < next h) as Hp by (simpl; lia).
  destruct (best_move_input_unchanged impossible_ai (mkRand false 0) h 0 Hp)
    as (Htot & Hframe & _).
  destruct (Htot eq_refl) as (r & h' & E).
  exists r, h'. split; [exact E|]. exact (proj1 (Hframe r h' E)).
Defined.

(** ** Scores of the positions where [_minimax] stops *)

(** C7. At depth [d], [_minimax] scores a position won by the engine's mark
    [100 - d], one won by the opponent's mark [-100 + d], a draw [0], and a
    position that is none of these but reached at the cutoff
    ([d >= max_depth]) [0]; it proposes no move there. *)
Theorem minimax_terminal_scores (self : AI) (board : list cell) (is_max : bool)
    (alpha beta d max_depth : Z) :
  ai_mark self ≠ human_mark self →
  ai_mark self ≠ "Draw"%string → human_mark self ≠ "Draw"%string →
  (_check_winner board = Ok (Some (ai_mark self)) →
   _minimax self board is_max alpha beta d max_depth
   = Ok ((100 - d)%Z, None, board)) ∧
  (_check_winner board = Ok (Some (human_mark self)) →
   _minimax self board is_max alpha beta d max_depth
   = Ok ((-100 + d)%Z, None, board)) ∧
  (_check_winner board = Ok (Some "Draw"%string) →
   _minimax self board is_max alpha beta d max_depth
   = Ok (0%Z, None, board)) ∧
  (_check_winner board = Ok None → (max_depth ≤ d)%Z →
   _minimax self board is_max alpha beta d max_depth
   = Ok (0%Z, None, board)).
Proof.
  intros Hne Ha Hh.
  assert (String.eqb (human_mark self) (ai_mark self) = false) as Hha
    by (apply String.eqb_neq; congruence).
  assert (String.eqb "Draw" (ai_mark self) = false) as Hda
    by (apply String.eqb_neq; congruence).
  assert (String.eqb "Draw" (human_mark self) = false) as Hdh
    by (apply String.eqb_neq; congruence).
  repeat split; intros Hw; rewrite _minimax_unfold, Hw;
    cbn [mbind result_bind cell_eqb].
  - by rewrite String.eqb_refl.
  - by rewrite Hha, String.eqb_refl.
  - rewrite Hda, Hdh. reflexivity.
  - intros Hd. destruct (Z.geb_spec d max_depth); [reflexivity | lia].
Qed.

Lemma minimax_terminal_scores_witness :
  _minimax impossible_ai [O; O; O; X; X; None; X; None; None] true (-9999) 9999 3 9
  = Ok ((97)%Z, None, [O; O; O; X; X; None; X; None; None]) ∧
  _minimax impossible_ai [X; X; X; O; O; None; None; None; None] true (-9999) 9999 2 9
  = Ok ((-98)%Z, None, [X; X; X; O; O; None; None; None; None]) ∧
  _minimax impossible_ai [X; O; X; X; O; O; O; X; X] true (-9999) 9999 5 9
  = Ok ((0)%Z, None, [X; O; X; X; O; O; O; X; X]) ∧
  _minimax impossible_ai [X; None; None; None; O; None; None; None; None]
    true (-9999) 9999 4 4
  = Ok ((0)%Z, None, [X; None; None; None; O; None; None; None; None]).
Proof.
  assert (ai_mark impossible_ai ≠ human_mark impossible_ai) as Hne by done.
  assert (ai_mark impossible_ai ≠ "Draw"%string) as Ha by done.
  assert (human_mark impossible_ai ≠ "Draw"%string) as Hh by done.
  split; [|split; [|split]].
  - apply (proj1 (minimax_terminal_scores impossible_ai _ true (-9999) 9999
                    3 9 Hne Ha Hh)); reflexivity.
  - apply (proj1 (proj2 (minimax_terminal_scores impossible_ai _ true (-9999)
                    9999 2 9 Hne Ha Hh))); reflexivity.
  - apply (proj1 (proj2 (proj2 (minimax_terminal_scores impossible_ai _ true
                    (-9999) 9999 5 9 Hne Ha Hh)))); reflexivity.
  - apply (proj2 (proj2 (proj2 (minimax_terminal_scores impossible_ai _ true
                    (-9999) 9999 4 4 Hne Ha Hh)))); [reflexivity | lia].
Defined.

(** ** A blocking move *)

(** C8. On the board with X in cells 0 and 1 and O in cell 4, the engine
    playing O at difficulty Impossible chooses cell 2. *)
Theorem best_move_blocks_top_row (rnd : Rand) :
  best_move impossible_ai rnd [X; X; None; None; O; None; None; None; None]
  = Ok (Some 2).
Proof. vm_compute. reflexivity. Qed.

(** ** Games against the engine: every game explored *)

Lemma place_inv (b b' : Board) now idx mark r :
  place b now idx mark = Ok (b', r) →
  (r = false ∧ b' = b) ∨
  (r = true ∧ (0 ≤ idx < 9)%Z ∧ cells b !! Z.to_nat idx = Some None ∧
   cells b' = <[Z.to_nat idx := Some mark]> (cells b)).
Proof.
  unfold place.
  destruct (Z.leb_spec 0 idx); simpl; [|intros [= <- <-]; by left].
  destruct (Z.ltb_spec idx 9); simpl; [|intros [= <- <-]; by left].
  destruct (getitem (cells b) (Z.to_nat idx)) as [c|] eqn:Hc; simpl; [|done].
  apply getitem_Ok in Hc.
  destruct c as [s|]; simpl; [intros [= <- <-]; by left|].
  destruct (setitem _ _ _) as [cs|] eqn:Hs; simpl; [|done].
  apply setitem_Ok in Hs as [_ ->]. intros [= <- <-]. right. by repeat split.
Qed.

Lemma best_move_impossible_rnd (rnd rnd' : Rand) (cs : list cell) :
  best_move impossible_ai rnd cs = best_move impossible_ai rnd' cs.
Proof.
  unfold best_move. destruct (available_from 0 cs); [done|].
  change (difficulty impossible_ai) with "Impossible"%string.
  change (String.eqb "Impossible" "Easy") with false.
  change (String.eqb "Impossible" "Medium") with false.
  reflexivity.
Qed.

Lemma check_pos_ok (fuel : nat) (t : bool) (cs : list cell) :
  check fuel t cs = true → pos_ok t cs = true.
Proof.
  destruct fuel; cbn [check]; intros H; by apply andb_true_iff in H as [? _].
Qed.

Lemma check_continues (fuel : nat) (t : bool) (cs : list cell) :
  check fuel t cs = true → is_in_progress cs = true →
  ∃ fuel', fuel = S fuel' ∧
    if t then
      match best_move impossible_ai rnd0 cs with
      | Ok (Some j) => check fuel' false (<[j := Some PLAYER_O]> cs) = true
      | _ => False
      end
    else
      ∀ i, i < 9 → cs !! i = Some None →
           check fuel' true (<[i := Some PLAYER_X]> cs) = true.
Proof.
  intros Hc Hip. destruct fuel as [|fuel']; cbn [check] in Hc;
    rewrite Hip in Hc; apply andb_true_iff in Hc as [_ Hc]; [done|].
  exists fuel'. split; [done|]. destruct t.
  - destruct (best_move impossible_ai rnd0 cs) as [[j|]|]; done.
  - intros i Hi Hempty. rewrite forallb_forall in Hc.
    specialize (Hc i). rewrite Hempty in Hc. apply Hc.
    unfold range9. apply in_seq. lia.
Qed.

Lemma check_sound (fuel : nat) (t : bool) (b : Board) (t' : bool) (b' : Board) :
  check fuel t (cells b) = true → game_from t b t' b' →
  pos_ok t' (cells b') = true.
Proof.
  intros Hc Hg. revert fuel Hc.
  induction Hg as [t b | b b1 t' b' [Hin Hstep] Hg IH
                        | b b1 t' b' [Hin Hstep] Hg IH]; intros fuel Hc.
  - by apply check_pos_ok in Hc.
  - unfold in_progress in Hin.
    assert (is_in_progress (cells b) = true) as Hip
      by (unfold is_in_progress; by rewrite Hin).
    destruct (check_continues _ _ _ Hc Hip) as (fuel' & -> & Hnext).
    destruct Hstep as (now & idx & Hp).
    apply place_inv in Hp as [[? _] | (_ & Hidx & Hempty & Hcells)]; [done|].
    apply (IH fuel'). rewrite Hcells. apply Hnext; [lia | done].
  - unfold in_progress in Hin.
    assert (is_in_progress (cells b) = true) as Hip
      by (unfold is_in_progress; by rewrite Hin).
    destruct (check_continues _ _ _ Hc Hip) as (fuel' & -> & Hnext).
    apply check_pos_ok in Hc. unfold pos_ok in Hc. rewrite Hip in Hc.
    apply andb_true_iff in Hc as [_ Hans]. cbn [andb] in Hans.
    unfold engine_answers in Hans.
    destruct Hstep as (rnd & now & [(j & r & Hbm & Hp) | [Hbm _]]);
      rewrite (best_move_impossible_rnd rnd rnd0) in Hbm;
      rewrite Hbm in Hans, Hnext; [|done].
    apply andb_true_iff in Hans as [Hj Hempty].
    apply Nat.ltb_lt in Hj. apply bool_decide_eq_true in Hempty.
    rewrite place_succeeds in Hp by (rewrite ?Nat2Z.id; first [lia | done]).
    injection Hp as <- _. apply (IH fuel'). simpl. by rewrite Nat2Z.id.
Qed.

Lemma check_all_games : check 10 false (replicate 9 None) = true.
Proof. vm_compute. reflexivity. Qed.

Lemma holds_true (cs : list cell) (i : nat) (m : string) :
  holds cs i m = true ↔ cs !! i = Some (Some m).
Proof.
  unfold holds. destruct (cs !! i) as [[s|]|]; [|done..].
  rewrite String.eqb_eq. split; congruence.
Qed.

Lemma has_triple_false (cs : list cell) (m : string) (t : triple) :
  has_triple cs m = false → t ∈ WIN_COMBINATIONS → ¬ uniform cs t m.
Proof.
  intros Hf Ht (_ & Ha & Hb & Hc).
  assert (has_triple cs m = true) as Htrue; [|congruence].
  unfold has_triple. apply existsb_exists. exists t.
  split; [by apply list_elem_of_In|].
  by rewrite !andb_true_iff, !holds_true.
Qed.

Lemma result_ok_true (r : result (cell * option triple)) :
  result_ok r = true →
  r = Ok (None, None) ∨ r = Ok (Some "Draw"%string, None) ∨
  ∃ t, r = Ok (Some PLAYER_O, Some t).
Proof.
  destruct r as [[[m|] [t|]]|]; simpl; try done.
  - rewrite String.eqb_eq. intros ->. right. right. by exists t.
  - rewrite String.eqb_eq. intros ->. right. by left.
  - by left.
Qed.

(** C2. In every game that starts on the empty board with the opponent (X)
    moving first and the engine (O) answering through [best_move] at
    difficulty Impossible, no position has a triple completed by X: each
    position is still in progress, a draw, or a win of the engine.  Whenever
    it is the engine's turn and the game is not over, [best_move] returns an
    empty cell, so the game goes on until [winner] reports a result. *)
Theorem impossible_engine_never_loses (t : bool) (b : Board) :
  game_from false Board_init t b →
  (∀ tr, tr ∈ WIN_COMBINATIONS → ¬ uniform (cells b) tr PLAYER_X) ∧
  (winner (cells b) = Ok (None, None) ∨
   winner (cells b) = Ok (Some "Draw"%string, None) ∨
   ∃ tr, winner (cells b) = Ok (Some PLAYER_O, Some tr)) ∧
  (t = true → in_progress (cells b) →
   ∀ rnd, ∃ j, best_move impossible_ai rnd (cells b) = Ok (Some j) ∧
               j < 9 ∧ cells b !! j = Some None).
Proof.
  intros Hg. pose proof (check_sound 10 false Board_init t b) as Hok.
  specialize (Hok check_all_games Hg). unfold pos_ok in Hok.
  apply andb_true_iff in Hok as [Hok Hans].
  apply andb_true_iff in Hok as [Hx Hres].
  apply negb_true_iff in Hx.
  split; [intros tr; by apply has_triple_false|].
  split; [by apply result_ok_true|].
  intros -> Hin rnd. unfold in_progress in Hin.
  unfold is_in_progress in Hans. rewrite Hin in Hans. cbn [andb] in Hans.
  unfold engine_answers in Hans.
  rewrite (best_move_impossible_rnd rnd rnd0).
  destruct (best_move impossible_ai rnd0 (cells b)) as [[j|]|]; [|done..].
  apply andb_true_iff in Hans as [Hj Hempty].
  apply Nat.ltb_lt in Hj. apply bool_decide_eq_true in Hempty. by exists j.
Qed.

Lemma sample_game : game_from false Board_init false sample_game_end.
Proof.
  unfold sample_game_end.
  eapply game_opponent.
  { split; [by vm_compute | by exists 0%Z, 0%Z]. }
  eapply game_engine.
  { split; [by vm_compute|]. exists rnd0, 1%Z. left. exists 4, true.
    split; [by vm_compute | reflexivity]. }
  eapply game_opponent.
  { split; [by vm_compute | by exists 2%Z, 1%Z]. }
  eapply game_engine.
  { split; [by vm_compute|]. exists rnd0, 3%Z. left. exists 2, true.
    split; [by vm_compute | reflexivity]. }
  eapply game_opponent.
  { split; [by vm_compute | by exists 4%Z, 3%Z]. }
  eapply game_engine.
  { split; [by vm_compute|]. exists rnd0, 5%Z. left. exists 6, true.
    split; [by vm_compute | reflexivity]. }
  apply game_here.
Defined.

Lemma impossible_engine_never_loses_witness :
  (∀ tr, tr ∈ WIN_COMBINATIONS → ¬ uniform (cells sample_game_end) tr PLAYER_X) ∧
  winner (cells sample_game_end) = Ok (Some PLAYER_O, Some (2, 4, 6)).
Proof.
  split.
  - exact (proj1 (impossible_engine_never_loses false sample_game_end
                    sample_game)).
  - reflexivity.
Defined.

(** ** Alpha-beta against minimax *)

Lemma foldr_max_base (m t : Z) (vals : list Z) :
  foldr Z.max (Z.max m t) vals = Z.max t (foldr Z.max m vals).
Proof. induction vals as [|v vals IH]; simpl; [lia | rewrite IH; lia]. Qed.

Lemma foldr_max_ge (m : Z) (vals : list Z) : (m ≤ foldr Z.max m vals)%Z.
Proof. induction vals as [|v vals IH]; simpl; lia. Qed.

Lemma foldr_min_base (m t : Z) (vals : list Z) :
  foldr Z.min (Z.min m t) vals = Z.min t (foldr Z.min m vals).
Proof. induction vals as [|v vals IH]; simpl; [lia | rewrite IH; lia]. Qed.

Lemma foldr_min_le (m : Z) (vals : list Z) : (foldr Z.min m vals ≤ m)%Z.
Proof. induction vals as [|v vals IH]; simpl; lia. Qed.

Lemma ab_ok_max_step (alpha0 beta bv m val t : Z) :
  (Z.max alpha0 bv < beta)%Z →
  ab_ok alpha0 beta bv m → ab_ok (Z.max alpha0 bv) beta val t →
  ab_ok alpha0 beta (Z.max bv val) (Z.max m t).
Proof. unfold ab_ok. lia. Qed.

Lemma ab_ok_max_cut (alpha0 beta v m t : Z) :
  (alpha0 < beta)%Z → (beta ≤ Z.max alpha0 v)%Z →
  ab_ok alpha0 beta v m → (m ≤ t)%Z → ab_ok alpha0 beta v t.
Proof. unfold ab_ok. lia. Qed.

Lemma ab_ok_min_step (alpha beta0 bv m val t : Z) :
  (alpha < Z.min beta0 bv)%Z →
  ab_ok alpha beta0 bv m → ab_ok alpha (Z.min beta0 bv) val t →
  ab_ok alpha beta0 (Z.min bv val) (Z.min m t).
Proof. unfold ab_ok. lia. Qed.

Lemma ab_ok_min_cut (alpha beta0 v m t : Z) :
  (alpha < beta0)%Z → (Z.min beta0 v ≤ alpha)%Z →
  ab_ok alpha beta0 v m → (t ≤ m)%Z → ab_ok alpha beta0 v t.
Proof. unfold ab_ok. lia. Qed.

Lemma gtb_max (val bv : Z) : (if (val >? bv)%Z then val else bv) = Z.max bv val.
Proof. destruct (Z.gtb_spec val bv); lia. Qed.

Lemma ltb_min (val bv : Z) : (if (val <? bv)%Z then val else bv) = Z.min bv val.
Proof. destruct (Z.ltb_spec val bv); lia. Qed.

Section AlphaBeta.
Variable self : AI.
(** [rec] is the search one ply down, [tv] the minimax value there. *)
Variable rec : list cell → Z → Z → Z.
Variable tv : list cell → Z.
Hypothesis rec_ok : ∀ b a' b',
  (-9999 ≤ a')%Z → (a' < b')%Z → (b' ≤ 9999)%Z → ab_ok a' b' (rec b a' b') (tv b).

(** The maximizing loop keeps [ab_ok] between [best_val] and the largest
    value [m] seen so far; [alpha] is [max alpha0 best_val] throughout. *)
Lemma ab_max_loop_ok (board : list cell) (alpha0 beta : Z) (idxs : list nat) :
  (-9999 ≤ alpha0)%Z → (beta ≤ 9999)%Z →
  ∀ bv bm m,
    (Z.max alpha0 bv < beta)%Z →
    ab_ok alpha0 beta bv m →
    ab_ok alpha0 beta
      (ab_max_loop self rec idxs board bv bm (Z.max alpha0 bv) beta).1
      (foldr Z.max m (child_values tv (ai_mark self) board idxs)).
Proof.
  intros Ha0 Hb. induction idxs as [|i rest IH];
    intros bv bm m Hlt Hinv; [done|]. simpl.
  destruct (board !! i) as [[s|]|]; [by apply IH | | by apply IH].
  set (b1 := <[i := Some (ai_mark self)]> board).
  assert (ab_ok (Z.max alpha0 bv) beta (rec b1 (Z.max alpha0 bv) beta) (tv b1))
    as Hrec by (apply rec_ok; lia).
  set (val := rec b1 (Z.max alpha0 bv) beta) in *. simpl.
  rewrite <- foldr_max_base. rewrite !gtb_max.
  pose proof (ab_ok_max_step _ _ _ _ _ _ Hlt Hinv Hrec) as Hinv'.
  replace (Z.max (Z.max alpha0 bv) (Z.max bv val))
    with (Z.max alpha0 (Z.max bv val)) by lia.
  destruct (Z.leb_spec beta (Z.max alpha0 (Z.max bv val))) as [Hbreak|Hgo].
  - simpl. apply (ab_ok_max_cut _ _ _ (Z.max m (tv b1)));
      [lia | done | done | apply foldr_max_ge].
  - by apply IH.
Qed.

Lemma ab_min_loop_ok (board : list cell) (alpha beta0 : Z) (idxs : list nat) :
  (-9999 ≤ alpha)%Z → (beta0 ≤ 9999)%Z →
  ∀ bv bm m,
    (alpha < Z.min beta0 bv)%Z →
    ab_ok alpha beta0 bv m →
    ab_ok alpha beta0
      (ab_min_loop self rec idxs board bv bm alpha (Z.min beta0 bv)).1
      (foldr Z.min m (child_values tv (human_mark self) board idxs)).
Proof.
  intros Ha Hb0. induction idxs as [|i rest IH];
    intros bv bm m Hlt Hinv; [done|]. simpl.
  destruct (board !! i) as [[s|]|]; [by apply IH | | by apply IH].
  set (b1 := <[i := Some (human_mark self)]> board).
  assert (ab_ok alpha (Z.min beta0 bv) (rec b1 alpha (Z.min beta0 bv)) (tv b1))
    as Hrec by (apply rec_ok; lia).
  set (val := rec b1 alpha (Z.min beta0 bv)) in *. simpl.
  rewrite <- foldr_min_base. rewrite !ltb_min.
  pose proof (ab_ok_min_step _ _ _ _ _ _ Hlt Hinv Hrec) as Hinv'.
  replace (Z.min (Z.min beta0 bv) (Z.min bv val))
    with (Z.min beta0 (Z.min bv val)) by lia.
  destruct (Z.leb_spec (Z.min beta0 (Z.min bv val)) alpha) as [Hbreak|Hgo].
  - simpl. apply (ab_ok_min_cut _ _ _ (Z.min m (tv b1)));
      [lia | done | done | apply foldr_min_le].
  - by apply IH.
Qed.
End AlphaBeta.

Lemma ab_ok_refl (alpha beta t : Z) : ab_ok alpha beta t t.
Proof. unfold ab_ok. lia. Qed.

(** Alpha-beta against minimax: inside the window the search returns the
    minimax value, outside a bound on the same side. *)
Lemma ab_search_ok (n : nat) (self : AI) :
  ∀ board is_max alpha beta depth,
    (-9999 ≤ alpha)%Z → (alpha < beta)%Z → (beta ≤ 9999)%Z →
    ab_ok alpha beta (ab_search n self board is_max alpha beta depth).1
      (mm_value n self board is_max depth).
Proof.
  induction n as [|n IH]; intros board is_max alpha beta depth Ha Hlt Hb;
    cbn [ab_search mm_value];
    repeat (destruct (cell_eqb (outcome board) _); [apply ab_ok_refl|]);
    [apply ab_ok_refl|].
  destruct is_max.
  - pose proof (ab_max_loop_ok self
      (λ b a' b', (ab_search n self b false a' b' (depth + 1)).1)
      (λ b, mm_value n self b false (depth + 1))
      (λ b a' b', IH b false a' b' (depth + 1)%Z)
      board alpha beta range9 Ha Hb (-9999)%Z None (-9999)%Z) as H.
    replace (Z.max alpha (-9999)) with alpha in H by lia.
    apply H; [done | unfold ab_ok; lia].
  - pose proof (ab_min_loop_ok self
      (λ b a' b', (ab_search n self b true a' b' (depth + 1)).1)
      (λ b, mm_value n self b true (depth + 1))
      (λ b a' b', IH b true a' b' (depth + 1)%Z)
      board alpha beta range9 Ha Hb 9999%Z None 9999%Z) as H.
    replace (Z.min beta 9999) with beta in H by lia.
    apply H; [done | unfold ab_ok; lia].
Qed.

(** *** Values on boards that hold the two players' marks *)

Lemma marks_only_insert self board i m :
  marks_only self board → m = ai_mark self ∨ m = human_mark self →
  marks_only self (<[i := Some m]> board).
Proof.
  intros Hb Hm j m' Hj.
  apply list_lookup_insert_Some in Hj as [(_ & [= <-] & _) | [_ Hj]];
    [done | by apply (Hb j)].
Qed.

Lemma check_winner_loop_Some (cs : list cell) (combos : list triple) (ca : cell) :
  check_winner_loop cs combos = Ok (Some ca) → ∃ a, cs !! a = Some ca.
Proof.
  induction combos as [|[[a b] c] rest IH]; simpl; [done|].
  destruct (getitem cs a) as [ca'|] eqn:Ha; simpl; [|done].
  destruct (truthy ca'); [|done].
  destruct (getitem cs b) as [cb|]; simpl; [|done].
  destruct (cell_eqb ca' cb); [|done].
  destruct (getitem cs c) as [cc|]; simpl; [|done].
  destruct (cell_eqb cb cc); [|done].
  intros [= <-]. exists a. by apply getitem_Ok.
Qed.

Lemma outcome_cases (self : AI) (board : list cell) :
  length board = 9 → marks_only self board →
  outcome board = Some (ai_mark self) ∨
  outcome board = Some (human_mark self) ∨
  outcome board = Some "Draw"%string ∨
  (outcome board = None ∧ ∃ i, i < 9 ∧ board !! i = Some None).
Proof.
  intros Hlen Hm. unfold outcome, _check_winner.
  destruct (check_winner_loop_total board WIN_COMBINATIONS) as [r Hr];
    [rewrite Hlen; apply WIN_COMBINATIONS_in_bounds|].
  rewrite Hr. cbn [mbind result_bind]. destruct r as [ca|].
  - apply check_winner_loop_Some in Hr as [a Ha].
    destruct ca as [m|].
    + destruct (Hm a m Ha) as [-> | ->]; auto.
    + do 3 right. split; [done|]. exists a. split; [|done].
      apply lookup_lt_Some in Ha. lia.
  - destruct (all_not_none board) eqn:Hall; [auto|].
    do 3 right. split; [done|].
    apply all_not_none_false in Hall as [i Hi]. exists i. split; [|done].
    apply lookup_lt_Some in Hi. lia.
Qed.

Lemma child_values_Forall (P : Z → Prop) f mark board idxs :
  (∀ i, i ∈ idxs → board !! i = Some None → P (f (<[i := Some mark]> board))) →
  Forall P (child_values f mark board idxs).
Proof.
  induction idxs as [|i rest IH]; intros H; simpl; [constructor|].
  assert (Forall P (child_values f mark board rest)) as Hrest.
  { apply IH. intros j Hj. apply H. by right. }
  destruct (board !! i) as [[s|]|] eqn:Hi; [done| |done].
  constructor; [|done]. apply H; [by left | done].
Qed.

Lemma child_values_nonempty f mark board idxs i :
  i ∈ idxs → board !! i = Some None → child_values f mark board idxs ≠ [].
Proof.
  induction idxs as [|i' rest IH]; intros Hin Hi; [by inversion Hin|]. simpl.
  apply elem_of_cons in Hin as [<- | Hin].
  - by rewrite Hi.
  - destruct (board !! i') as [[s|]|]; [by apply IH | done | by apply IH].
Qed.

Lemma foldr_max_bounds (lo hi base : Z) (vals : list Z) :
  vals ≠ [] → Forall (λ v, lo ≤ v ≤ hi)%Z vals → (base ≤ lo)%Z →
  (lo ≤ foldr Z.max base vals ≤ hi)%Z.
Proof.
  intros Hne Hall Hbase. induction Hall as [|v vals Hv Hall IH]; [done|].
  simpl. destruct vals as [|v' vals']; simpl in *; [lia|].
  specialize (IH ltac:(done)). lia.
Qed.

Lemma foldr_min_bounds (lo hi base : Z) (vals : list Z) :
  vals ≠ [] → Forall (λ v, lo ≤ v ≤ hi)%Z vals → (hi ≤ base)%Z →
  (lo ≤ foldr Z.min base vals ≤ hi)%Z.
Proof.
  intros Hne Hall Hbase. induction Hall as [|v vals Hv Hall IH]; [done|].
  simpl. destruct vals as [|v' vals']; simpl in *; [lia|].
  specialize (IH ltac:(done)). lia.
Qed.

Lemma elem_of_range9 (i : nat) : i ∈ range9 ↔ i < 9.
Proof. unfold range9. rewrite elem_of_seq. lia. Qed.

(** On such boards every minimax value is a score between -100 and 100. *)
Lemma mm_value_bounds (n : nat) (self : AI) :
  ∀ board is_max depth,
    length board = 9 → marks_only self board →
    (0 ≤ depth)%Z → (depth + Z.of_nat n ≤ 100)%Z →
    (-100 ≤ mm_value n self board is_max depth ≤ 100)%Z.
Proof.
  induction n as [|n IH]; intros board is_max depth Hlen Hm Hd Hn;
    cbn [mm_value];
    (destruct (cell_eqb (outcome board) (Some (ai_mark self))) eqn:E1; [lia|]);
    (destruct (cell_eqb (outcome board) (Some (human_mark self))) eqn:E2; [lia|]);
    (destruct (cell_eqb (outcome board) (Some "Draw"%string)) eqn:E3; [lia|]);
    [lia|].
  apply cell_eqb_neq in E1, E2, E3.
  destruct (outcome_cases self board Hlen Hm)
    as [? | [? | [? | (_ & i & Hi & Hempty)]]]; [done..|].
  destruct is_max.
  - apply foldr_max_bounds; [|apply child_values_Forall|lia].
    + by apply (child_values_nonempty _ _ _ _ i); [apply elem_of_range9|].
    + intros j _ Hj. apply IH; [by rewrite length_insert | | lia | lia].
      apply marks_only_insert; auto.
  - apply foldr_min_bounds; [|apply child_values_Forall|lia].
    + by apply (child_values_nonempty _ _ _ _ i); [apply elem_of_range9|].
    + intros j _ Hj. apply IH; [by rewrite length_insert | | lia | lia].
      apply marks_only_insert; auto.
Qed.

(** *** Which move the outermost loop keeps

    At the root the window is [(-9999, 9999)] and [alpha] follows [best_val]:
    a later cell replaces the kept move only with a strictly larger value, so
    the move returned is the first cell of largest minimax value. *)
Section RootLoop.
Variable self : AI.
Variable rec : list cell → Z → Z → Z.
Variable tv : list cell → Z.
Hypothesis rec_ok : ∀ b a' b',
  (-9999 ≤ a')%Z → (a' < b')%Z → (b' ≤ 9999)%Z → ab_ok a' b' (rec b a' b') (tv b).
Variable board : list cell.
Local Abbreviation value_at i := (value_of self tv board i).

Lemma ab_max_loop_root (k : nat) : ∀ s bv bm,
  (-9999 ≤ bv < 9999)%Z →
  (∀ i, s ≤ i < s + k → board !! i = Some None → (value_at i < 9999)%Z) →
  (ab_max_loop self rec (seq s k) board bv bm bv 9999 = (bv, bm) ∧
   ∀ i, s ≤ i < s + k → board !! i = Some None → (value_at i ≤ bv)%Z) ∨
  (∃ i, ab_max_loop self rec (seq s k) board bv bm bv 9999
        = (value_at i, Some i) ∧
        s ≤ i < s + k ∧ board !! i = Some None ∧ (bv < value_at i)%Z ∧
        (∀ j, s ≤ j < s + k → board !! j = Some None →
              (value_at j ≤ value_at i)%Z) ∧
        (∀ j, s ≤ j < i → board !! j = Some None →
              (value_at j < value_at i)%Z)).
Proof.
  induction k as [|k IH]; intros s bv bm Hbv Hub.
  { left. split; [done | intros; lia]. }
  assert (∀ bv' bm', (-9999 ≤ bv' < 9999)%Z → (bv ≤ bv')%Z →
    (board !! s = Some None → (value_at s ≤ bv')%Z) →
    ((ab_max_loop self rec (seq (S s) k) board bv' bm' bv' 9999 = (bv', bm') ∧
      ∀ i, s ≤ i < s + S k → board !! i = Some None → (value_at i ≤ bv')%Z) ∨
     (∃ i, ab_max_loop self rec (seq (S s) k) board bv' bm' bv' 9999
           = (value_at i, Some i) ∧
           s ≤ i < s + S k ∧ board !! i = Some None ∧ (bv' < value_at i)%Z ∧
           (∀ j, s ≤ j < s + S k → board !! j = Some None →
                 (value_at j ≤ value_at i)%Z) ∧
           (∀ j, s ≤ j < i → board !! j = Some None →
                 (value_at j < value_at i)%Z)))) as Hrest.
  { intros bv' bm' Hbv' Hle Hs.
    destruct (IH (S s) bv' bm' Hbv') as [[Heq Hall] | (i & Heq & Hi & He & Hlt & Hmax & Hfirst)].
    - intros i Hi. apply Hub. lia.
    - left. split; [done|]. intros i Hi Hei.
      destruct (decide (i = s)) as [-> | Hne]; [by apply Hs|].
      apply Hall; [lia | done].
    - right. exists i. split; [done|]. split; [lia|]. split; [done|].
      split; [done|]. split.
      + intros j Hj Hej. destruct (decide (j = s)) as [-> | Hne].
        * specialize (Hs Hej). lia.
        * apply Hmax; [lia | done].
      + intros j Hj Hej. destruct (decide (j = s)) as [-> | Hne].
        * specialize (Hs Hej). lia.
        * apply Hfirst; [lia | done]. }
  cbn [seq ab_max_loop].
  destruct (board !! s) as [[m|]|] eqn:Hs.
  - destruct (Hrest bv bm Hbv) as [Hl | (i & Hr)];
      [lia | intros He; try rewrite Hs in He; done | by left | right; by exists i].
  - pose proof (rec_ok (<[s := Some (ai_mark self)]> board) bv 9999) as Hrec.
    fold (value_of self tv board s) in Hrec.
    set (val := rec (<[s := Some (ai_mark self)]> board) bv 9999) in *.
    assert (value_at s < 9999)%Z as Hs9 by (apply Hub; [lia | done]).
    unfold ab_ok in Hrec. cbn zeta.
    destruct (Z.gtb_spec val bv) as [Hgt | Hle].
    + assert (val = value_at s) as Hval by lia.
      replace (Z.max bv val) with val by lia.
      destruct (Z.leb_spec 9999 val); [lia|].
      destruct (Hrest val (Some s))
        as [[Heq Hall] | (i & Heq & Hi & He & Hlt & Hmax & Hfirst)];
        [lia | lia | intros; lia | |].
      * right. exists s. rewrite Heq, Hval.
        split; [done|]. split; [lia|]. split; [done|]. split; [lia|].
        split; [|intros; lia].
        intros j Hj Hej. rewrite <- Hval. by apply Hall.
      * right. exists i. split; [done|]. split; [done|]. split; [done|].
        split; [lia | done].
    + replace (Z.max bv bv) with bv by lia.
      destruct (Z.leb_spec 9999 bv); [lia|].
      destruct (Hrest bv bm Hbv) as [Hl | (i & Hr)];
        [lia | intros; lia | by left | right; by exists i].
  - destruct (Hrest bv bm Hbv) as [Hl | (i & Hr)];
      [lia | intros He; try rewrite Hs in He; done | by left | right; by exists i].
Qed.
End RootLoop.

Lemma in_progress_empty_cell (self : AI) (board : list cell) :
  length board = 9 → _check_winner board = Ok None →
  outcome board = None ∧ ∃ i, i < 9 ∧ board !! i = Some None.
Proof.
  intros Hlen Hw.
  assert (outcome board = None) as Hout by (unfold outcome; by rewrite Hw).
  split; [done|]. unfold _check_winner in Hw.
  destruct (check_winner_loop board WIN_COMBINATIONS) as [[ca|]|] eqn:Hr;
    cbn [mbind result_bind] in Hw; [| |done].
  - injection Hw as ->.
    destruct (check_winner_loop_Some board WIN_COMBINATIONS None Hr) as [a Ha].
    exists a. split; [|done]. apply lookup_lt_Some in Ha. lia.
  - destruct (all_not_none board) eqn:Hall; [done|].
    apply all_not_none_false in Hall as [i Hi]. exists i. split; [|done].
    apply lookup_lt_Some in Hi. lia.
Qed.

Lemma ab_search_root (n : nat) (self : AI) (board : list cell) (depth : Z) :
  length board = 9 → marks_only self board → _check_winner board = Ok None →
  (0 ≤ depth)%Z → (depth + Z.of_nat (S n) ≤ 100)%Z →
  let value j :=
    mm_value n self (<[j := Some (ai_mark self)]> board) false (depth + 1) in
  ∃ i, ab_search (S n) self board true (-9999) 9999 depth = (value i, Some i) ∧
       i < 9 ∧ board !! i = Some None ∧
       (∀ j, j < 9 → board !! j = Some None → (value j ≤ value i)%Z) ∧
       (∀ j, j < i → board !! j = Some None → (value j < value i)%Z).
Proof.
  intros Hlen Hm Hw Hd Hn value.
  destruct (in_progress_empty_cell self board Hlen Hw) as (Hout & i0 & Hi0 & He0).
  assert (∀ j, board !! j = Some None → (-100 ≤ value j ≤ 100)%Z) as Hbound.
  { intros j Hj. apply mm_value_bounds;
      [by rewrite length_insert | apply marks_only_insert; auto | lia | lia]. }
  cbn [ab_search]. rewrite Hout. cbn [cell_eqb].
  destruct (ab_max_loop_root self
    (λ b a' b', (ab_search n self b false a' b' (depth + 1)).1)
    (λ b, mm_value n self b false (depth + 1))
    (λ b a' b', ab_search_ok n self b false a' b' (depth + 1)%Z)
    board 9 0 (-9999)%Z None)
    as [[_ Hall] | (i & Heq & Hi & He & _ & Hmax & Hfirst)].
  - lia.
  - intros j _ Hj. specialize (Hbound j Hj).
    unfold value_of. subst value. cbn beta in *. lia.
  - specialize (Hall i0 ltac:(lia) He0). specialize (Hbound i0 He0).
    unfold value_of in Hall. subst value. cbn beta in *. lia.
  - unfold value_of in *. cbn beta in *.
    exists i. split; [exact Heq|]. split; [lia|]. split; [done|]. split.
    + intros j Hj. apply Hmax. lia.
    + intros j Hj. apply Hfirst. lia.
Qed.

Lemma available_from_nonempty (cs : list cell) (i : nat) :
  cs !! i = Some None → available_from 0 cs ≠ [].
Proof.
  intros Hi Hnil. by apply (proj1 (available_from_nil_iff 0 cs) Hnil i).
Qed.

(** C6, as the code has it.  On a nine-cell board that holds only the two
    players' marks and is still in progress, at any difficulty but Easy and
    with the random branch of Medium off, the cells are tried in the order
    0..8 and [best_move] returns one index whatever the random source: an
    empty cell whose minimax value (the board
    after the engine's mark there, opponent to move, cutoff 4 plies at Medium
    and 9 otherwise) is the largest among the empty cells, and the lowest such
    cell. *)
Theorem best_move_lowest_best (self : AI) (cs : list cell) :
  length cs = 9 → marks_only self cs → _check_winner cs = Ok None →
  difficulty self ≠ "Easy"%string →
  let n := if String.eqb (difficulty self) "Medium" then 3 else 8 in
  let value j := mm_value n self (<[j := Some (ai_mark self)]> cs) false 1 in
  range9 = [0; 1; 2; 3; 4; 5; 6; 7; 8] ∧
  ∃ i, (∀ rnd, coin rnd = false → best_move self rnd cs = Ok (Some i)) ∧
       i < 9 ∧ cs !! i = Some None ∧
       (∀ j, j < 9 → cs !! j = Some None → (value j ≤ value i)%Z) ∧
       (∀ j, j < i → cs !! j = Some None → (value j < value i)%Z).
Proof.
  intros Hlen Hm Hw Heasy n value. split; [reflexivity|].
  destruct (ab_search_root n self cs 0 Hlen Hm Hw)
    as (i & Heq & Hrest); [lia | subst n; destruct (String.eqb _ _); lia |].
  exists i. split; [|exact Hrest].
  intros rnd Hcoin. unfold best_move.
  destruct (in_progress_empty_cell self cs Hlen Hw) as (_ & i0 & _ & He0).
  destruct (available_from 0 cs) as [|a av] eqn:Hav;
    [by apply available_from_nonempty in He0|].
  apply String.eqb_neq in Heasy. rewrite Heasy, Hcoin.
  subst n. destruct (String.eqb (difficulty self) "Medium").
  - rewrite (minimax_refines 4) by (done || lia).
    cbn [mbind result_bind]. by rewrite Heq.
  - rewrite (minimax_refines 9) by (done || lia).
    cbn [mbind result_bind]. by rewrite Heq.
Qed.

Lemma marks_only_block_board :
  marks_only impossible_ai [X; X; None; None; O; None; None; None; None].
Proof.
  intros i m H.
  repeat (destruct i as [|i]; simpl in H;
          [first [discriminate | injection H as <-; first [by left | by right]]|]).
  discriminate.
Qed.

Lemma best_move_lowest_best_witness :
  ∃ i, best_move impossible_ai rnd0 [X; X; None; None; O; None; None; None; None]
       = Ok (Some i) ∧
       i < 9 ∧ [X; X; None; None; O; None; None; None; None] !! i = Some None.
Proof.
  assert (difficulty impossible_ai ≠ "Easy"%string) as Hd by done.
  destruct (best_move_lowest_best impossible_ai
              [X; X; None; None; O; None; None; None; None]
              eq_refl marks_only_block_board eq_refl Hd)
    as (_ & i & Hbm & Hi & He & _).
  exists i. split; [by apply Hbm | done].
Defined.

(** *** Boards that are already decided *)

(** C6 does not hold on decided boards: at Medium with the random branch off, the search
    proposes no move on a decided board and [best_move] falls back on [random.choice]: two calls
    on the same board return different cells. *)
Lemma best_move_medium_depends_on_random :
  length decided_board = 9 ∧ decided_board !! 5 = Some None ∧
  coin (mkRand false 0) = false ∧ coin (mkRand false 1) = false ∧
  best_move medium_ai (mkRand false 0) decided_board = Ok (Some 5) ∧
  best_move medium_ai (mkRand false 1) decided_board = Ok (Some 6).
Proof. by vm_compute. Qed.

(** C5 on a decided board.  At Impossible there is no fallback: [best_move]
    returns [None] although cells 5 to 8 are empty, where the specification
    has it return [None] only on a board without empty cell. *)
Lemma best_move_none_on_decided_board (rnd : Rand) :
  length decided_board = 9 ∧ decided_board !! 5 = Some None ∧
  best_move impossible_ai rnd decided_board = Ok None.
Proof. by vm_compute. Qed.

(** At Easy and Medium [best_move] returns a cell whenever one is empty. *)
Lemma best_move_some_easy_medium (self : AI) (rnd : Rand) (cs : list cell) (i : nat) :
  length cs = 9 → cs !! i = Some None →
  difficulty self = "Easy"%string ∨ difficulty self = "Medium"%string →
  ∃ j, best_move self rnd cs = Ok (Some j).
Proof.
  intros Hlen Hi Hd. unfold best_move.
  destruct (available_from 0 cs) as [|a av] eqn:Hav;
    [by apply available_from_nonempty in Hi|].
  destruct (random_choice_Ok rnd (a :: av)) as (x & Hx & _); [done|].
  destruct Hd as [-> | ->].
  - change (String.eqb "Easy" "Easy") with true. cbv iota.
    rewrite Hx. by exists x.
  - change (String.eqb "Medium" "Easy") with false.
    change (String.eqb "Medium" "Medium") with true. cbv iota.
    destruct (coin rnd); [rewrite Hx; by exists x|].
    rewrite (minimax_refines 4) by (done || lia). cbn [mbind result_bind].
    destruct (ab_search 4 self cs true (-9999) 9999 0) as [v [m|]];
      [by exists m | rewrite Hx; by exists x].
Qed.

(** ** The turn controller

    *** Clicks that change nothing *)

Lemma click_not_playing (g : Game) (now : Z) (hit : option (Z * Z)) :
  mode g ≠ "playing"%string → handle_click_board g now hit = Ok g.
Proof.
  intros Hm. unfold handle_click_board.
  apply String.eqb_neq in Hm. by rewrite Hm.
Qed.

Lemma click_occupied (g : Game) (now col row : Z) (m : string) :
  cells (board g) !! Z.to_nat (row * 3 + col) = Some (Some m) →
  handle_click_board g now (Some (col, row)) = Ok g.
Proof.
  intros Hc. unfold handle_click_board.
  destruct (negb _); [done|].
  destruct (_ && _); [|done].
  unfold getitem. by rewrite Hc.
Qed.

Lemma click_off_grid (g : Game) (now col row : Z) :
  (row * 3 + col < 0 ∨ 9 ≤ row * 3 + col)%Z →
  handle_click_board g now (Some (col, row)) = Ok g.
Proof.
  intros Hc. unfold handle_click_board.
  destruct (negb _); [done|].
  destruct (Z.leb_spec 0 (row * 3 + col)); simpl; [|done].
  destruct (Z.ltb_spec (row * 3 + col) 9); [lia | done].
Qed.

(** *** A click while the engine's move is pending *)

(** C4 at the state [waiting_for_engine].  A click on the empty cell 1 at tick 100, before the
    engine has moved, is not ignored: [handle_click_board] never looks at whose
    turn it is and places the current player's mark, O, in cell 1, and arms
    the engine's delay again. *)
Theorem click_during_engine_turn_places_mark :
  view <$> waiting_for_engine
  = Ok ([X; None; None; None; None; None; None; None; None],
        PLAYER_O, "playing"%string, true, 340%Z, 0%Z) ∧
  view <$> (waiting_for_engine ≫= λ g, handle_click_board g 100 (Some (1, 0)%Z))
  = Ok ([X; O; None; None; None; None; None; None; None],
        PLAYER_O, "playing"%string, true, 440%Z, 100%Z).
Proof. split; vm_compute; reflexivity. Qed.

(** * Part III: further properties of the code *)

(** ** What a result of [Board.winner] says about the board *)

Lemma winner_loop_sound (cs : list cell) (combos : list triple) ca t :
  winner_loop cs combos = Ok (Some (ca, t)) →
  t ∈ combos ∧ ∃ m, ca = Some m ∧ uniform cs t m.
Proof.
  induction combos as [|[[a b] c] rest IH]; simpl; [done|].
  destruct (getitem cs a) as [ca'|] eqn:Ha; simpl; [|done].
  destruct (truthy ca') eqn:Ht;
    [|intros H; destruct (IH H) as [? ?]; split; [by right | done]].
  destruct (getitem cs b) as [cb|] eqn:Hb; simpl; [|done].
  destruct (cell_eqb ca' cb) eqn:Hab;
    [|intros H; destruct (IH H) as [? ?]; split; [by right | done]].
  destruct (getitem cs c) as [cc|] eqn:Hc; simpl; [|done].
  destruct (cell_eqb cb cc) eqn:Hbc;
    [|intros H; destruct (IH H) as [? ?]; split; [by right | done]].
  intros [= <- <-]. split; [by left|].
  apply truthy_true in Ht as (m & -> & Hm).
  apply cell_eqb_eq in Hab as <-. apply cell_eqb_eq in Hbc as <-.
  apply getitem_Ok in Ha, Hb, Hc. exists m. by repeat split.
Qed.

Lemma winner_loop_None (cs : list cell) (combos : list triple) :
  winner_loop cs combos = Ok None → Forall (λ t, ¬ complete cs t) combos.
Proof.
  induction combos as [|[[a b] c] rest IH]; simpl; [constructor|].
  destruct (getitem cs a) as [ca|] eqn:Ha; simpl; [|done].
  apply getitem_Ok in Ha.
  destruct (truthy ca) eqn:Ht.
  - destruct (getitem cs b) as [cb|] eqn:Hb; simpl; [|done].
    apply getitem_Ok in Hb.
    destruct (cell_eqb ca cb) eqn:Hab.
    + destruct (getitem cs c) as [cc|] eqn:Hc; simpl; [|done].
      apply getitem_Ok in Hc.
      destruct (cell_eqb cb cc) eqn:Hbc; [done|].
      intros H. constructor; [|by apply IH].
      intros (m & _ & _ & Hb' & Hc'). simpl in *.
      apply cell_eqb_neq in Hbc. congruence.
    + intros H. constructor; [|by apply IH].
      intros (m & _ & Ha' & Hb' & _). simpl in *.
      apply cell_eqb_neq in Hab. congruence.
  - intros H. constructor; [|by apply IH].
    intros (m & Hm & Ha' & _). simpl in *.
    assert (truthy ca = true); [|congruence].
    apply truthy_true. exists m. split; [congruence | done].
Qed.

Lemma winner_loop_total (cs : list cell) (combos : list triple) :
  Forall (in_bounds (length cs)) combos → ∃ r, winner_loop cs combos = Ok r.
Proof.
  induction combos as [|[[a b] c] rest IH]; intros Hb; [by eexists|].
  apply Forall_cons in Hb as [(Ha & Hb & Hc) Hrest]. simpl in *.
  destruct (getitem_lt cs a Ha) as (ca & _ & ->).
  destruct (getitem_lt cs b Hb) as (cb & _ & ->).
  destruct (getitem_lt cs c Hc) as (cc & _ & ->). simpl.
  destruct (truthy ca); [|by apply IH].
  destruct (cell_eqb ca cb); [|by apply IH].
  destruct (cell_eqb cb cc); [by eexists | by apply IH].
Qed.

Lemma winner_total (cs : list cell) :
  length cs = 9 → ∃ w combo, winner cs = Ok (w, combo).
Proof.
  intros Hlen. unfold winner.
  destruct (winner_loop_total cs WIN_COMBINATIONS) as [r ->];
    [rewrite Hlen; apply WIN_COMBINATIONS_in_bounds|].
  cbn [mbind result_bind]. destruct r as [[m t]|]; [by eexists _, _|].
  destruct (all_not_none cs); by eexists _, _.
Qed.

Lemma winner_inv (cs : list cell) (w : cell) (combo : option triple) :
  winner cs = Ok (w, combo) →
  match combo with
  | Some t => t ∈ WIN_COMBINATIONS ∧ ∃ m, w = Some m ∧ uniform cs t m
  | None =>
      Forall (λ t, ¬ complete cs t) WIN_COMBINATIONS ∧
      ((w = Some "Draw"%string ∧ ∀ i, cs !! i ≠ Some None) ∨
       (w = None ∧ ∃ i, cs !! i = Some None))
  end.
Proof.
  unfold winner.
  destruct (winner_loop cs WIN_COMBINATIONS) as [[[ca t]|]|] eqn:Hl;
    cbn [mbind result_bind]; [| |done].
  - intros [= <- <-]. by apply winner_loop_sound.
  - apply winner_loop_None in Hl.
    destruct (all_not_none cs) eqn:Hall; intros [= <- <-]; (split; [done|]).
    + left. split; [done|]. by apply all_not_none_true.
    + right. split; [done|]. by apply all_not_none_false.
Qed.

(** X1. Whatever [winner] reports is true of the board: a reported triple is
    one of the eight combinations and its three cells hold the reported mark;
    ['Draw'] is reported only when no combination is complete and no cell is
    empty, and [(None, None)] only when no combination is complete and some
    cell is empty.  On nine cells [winner] always reports one of the three. *)
Theorem winner_reports_truth (cs : list cell) :
  length cs = 9 →
  (∃ w combo, winner cs = Ok (w, combo)) ∧
  ∀ w combo, winner cs = Ok (w, combo) →
    match combo with
    | Some t => t ∈ WIN_COMBINATIONS ∧ ∃ m, w = Some m ∧ uniform cs t m
    | None =>
        Forall (λ t, ¬ complete cs t) WIN_COMBINATIONS ∧
        ((w = Some "Draw"%string ∧ ∀ i, cs !! i ≠ Some None) ∨
         (w = None ∧ ∃ i, cs !! i = Some None))
    end.
Proof.
  intros Hlen. split; [by apply winner_total|]. apply winner_inv.
Qed.

Lemma winner_reports_truth_witness :
  (2, 4, 6) ∈ WIN_COMBINATIONS ∧
  ∃ m, Some "O"%string = Some m ∧
       uniform [X; X; O; X; O; None; O; None; None] (2, 4, 6) m.
Proof.
  exact (proj2 (winner_reports_truth [X; X; O; X; O; None; O; None; None]
                  eq_refl) (Some "O"%string) (Some (2, 4, 6)) eq_refl).
Defined.

(** ** [Board.place] never overwrites *)

Lemma place_effect (b b' : Board) now idx mark r :
  place b now idx mark = Ok (b', r) →
  length (cells b') = length (cells b) ∧
  (∀ i m, cells b !! i = Some (Some m) → cells b' !! i = Some (Some m)) ∧
  (∀ i, cells b' !! i = Some None → cells b !! i = Some None) ∧
  winning_combo b' = winning_combo b ∧
  anim b' = (if r then <[Z.to_nat idx := now]> (anim b) else anim b).
Proof.
  intros Hp. pose proof Hp as Hinv.
  apply place_inv in Hinv as [[-> ->] | (-> & Hidx & Hempty & Hcells)]; [done|].
  rewrite place_succeeds in Hp by done. injection Hp as <-. simpl.
  split; [apply length_insert|]. split; [|split; [|done]].
  - intros i m Hi. destruct (decide (i = Z.to_nat idx)) as [-> | Hne];
      [congruence | by rewrite list_lookup_insert_ne].
  - intros i Hi. destruct (decide (i = Z.to_nat idx)) as [-> | Hne];
      [done | by rewrite list_lookup_insert_ne in Hi].
Qed.

(** X2. Whatever the index, the mark and the length of the list, a [place]
    that returns keeps the number of cells, leaves every mark on the board
    where it is, empties no cell, and stamps the animation table at the index
    exactly when it reports success. *)
Theorem place_never_overwrites (b b' : Board) (now idx : Z) (mark : string)
    (r : bool) :
  place b now idx mark = Ok (b', r) →
  length (cells b') = length (cells b) ∧
  (∀ i m, cells b !! i = Some (Some m) → cells b' !! i = Some (Some m)) ∧
  (∀ i, cells b' !! i = Some None → cells b !! i = Some None) ∧
  winning_combo b' = winning_combo b ∧
  anim b' = (if r then <[Z.to_nat idx := now]> (anim b) else anim b).
Proof. apply place_effect. Qed.

Lemma place_never_overwrites_witness :
  cells (after (after Board_init 0 4 PLAYER_X) 1 0 PLAYER_O) !! 4
  = Some (Some PLAYER_X).
Proof.
  exact (proj1 (proj2 (place_never_overwrites
    (after Board_init 0 4 PLAYER_X)
    (after (after Board_init 0 4 PLAYER_X) 1 0 PLAYER_O)
    1 0 PLAYER_O true eq_refl)) 4 PLAYER_X eq_refl).
Defined.

(** ** The cell [best_move] returns *)

Lemma available_from_elem (s : nat) (cs : list cell) (x : nat) :
  x ∈ available_from s cs ↔ s ≤ x ∧ cs !! (x - s) = Some None.
Proof.
  revert s. induction cs as [|c cs IH]; intros s; simpl.
  - rewrite elem_of_nil, lookup_nil. split; [done | by intros [_ ?]].
  - assert (x ∈ available_from (S s) cs ↔
            s ≤ x ∧ x ≠ s ∧ (c :: cs) !! (x - s) = Some None) as Hrest.
    { rewrite IH. split.
      - intros [Hle Hx]. split; [lia|]. split; [lia|].
        replace (x - s) with (S (x - S s)) by lia. done.
      - intros (Hle & Hne & Hx). split; [lia|].
        replace (x - s) with (S (x - S s)) in Hx by lia. done. }
    destruct c as [m|]; simpl.
    + rewrite Hrest. split; [by intros (? & _ & ?)|]. intros [Hle Hx].
      split; [done|]. split; [|done]. intros ->.
      by rewrite Nat.sub_diag in Hx.
    + rewrite elem_of_cons, Hrest. split.
      * intros [-> | (? & ? & ?)]; [by rewrite Nat.sub_diag | done].
      * intros [Hle Hx]. destruct (decide (x = s)); [by left | by right].
Qed.

Lemma random_choice_elem (rnd : Rand) (l : list nat) (x : nat) :
  random_choice rnd l = Ok x → x ∈ l.
Proof.
  unfold random_choice.
  destruct (l !! (pick rnd mod length l)) as [y|] eqn:Hy; [|done].
  intros [= <-]. by eapply list_elem_of_lookup_2.
Qed.

Lemma ab_max_loop_move self rec idxs board bv bm alpha beta :
  Forall (λ i, i < 9) idxs → move_ok board bm →
  move_ok board (ab_max_loop self rec idxs board bv bm alpha beta).2.
Proof.
  intros Hidx. revert bv bm alpha.
  induction Hidx as [|i rest Hi Hrest IH]; intros bv bm alpha Hbm; [done|].
  simpl. destruct (board !! i) as [[m|]|] eqn:Hc; [by apply IH | | by apply IH].
  assert (move_ok board
            (if (rec (<[i := Some (ai_mark self)]> board) alpha beta >? bv)%Z
             then Some i else bm)) as Hbm'.
  { destruct (_ >? _)%Z; [by split | done]. }
  destruct (_ <=? _)%Z; [done | by apply IH].
Qed.

Lemma ab_min_loop_move self rec idxs board bv bm alpha beta :
  Forall (λ i, i < 9) idxs → move_ok board bm →
  move_ok board (ab_min_loop self rec idxs board bv bm alpha beta).2.
Proof.
  intros Hidx. revert bv bm beta.
  induction Hidx as [|i rest Hi Hrest IH]; intros bv bm beta Hbm; [done|].
  simpl. destruct (board !! i) as [[m|]|] eqn:Hc; [by apply IH | | by apply IH].
  assert (move_ok board
            (if (rec (<[i := Some (human_mark self)]> board) alpha beta <? bv)%Z
             then Some i else bm)) as Hbm'.
  { destruct (_ <? _)%Z; [by split | done]. }
  destruct (_ <=? _)%Z; [done | by apply IH].
Qed.

Lemma ab_search_move (n : nat) self board is_max alpha beta depth :
  move_ok board (ab_search n self board is_max alpha beta depth).2.
Proof.
  destruct n as [|n]; cbn [ab_search];
    repeat (destruct (cell_eqb (outcome board) _); [done|]); [done|].
  destruct is_max;
    [apply ab_max_loop_move | apply ab_min_loop_move];
    (apply range9_lt || done).
Qed.

Lemma best_move_total (self : AI) (rnd : Rand) (cs : list cell) :
  length cs = 9 → ∃ r, best_move self rnd cs = Ok r.
Proof.
  intros Hlen.
  destruct (best_move_in_total self rnd {| obj := λ _, cs; next := 1 |} 0 Hlen)
    as (r & h' & Hr).
  apply best_move_in_frame in Hr as [Hr _]. by exists r.
Qed.

Lemma best_move_elem (self : AI) (rnd : Rand) (cs : list cell) (i : nat) :
  length cs = 9 → best_move self rnd cs = Ok (Some i) →
  i < 9 ∧ cs !! i = Some None.
Proof.
  intros Hlen. unfold best_move.
  destruct (available_from 0 cs) as [|a av] eqn:Hav; [done|].
  assert (∀ x, Some <$> random_choice rnd (a :: av) = Ok (Some x) →
               x < 9 ∧ cs !! x = Some None) as Hrandom.
  { intros x Hx.
    destruct (random_choice rnd (a :: av)) as [y|] eqn:Hy; [|done].
    injection Hx as ->. apply random_choice_elem in Hy.
    rewrite <- Hav in Hy. apply available_from_elem in Hy as [_ Hy].
    rewrite Nat.sub_0_r in Hy. split; [|done].
    apply lookup_lt_Some in Hy. lia. }
  destruct (String.eqb (difficulty self) "Easy"); [apply Hrandom|].
  destruct (String.eqb (difficulty self) "Medium").
  - destruct (coin rnd); [apply Hrandom|].
    rewrite (minimax_refines 4) by (done || lia). cbn [mbind result_bind].
    pose proof (ab_search_move 4 self cs true (-9999) 9999 0) as Hm.
    destruct (ab_search 4 self cs true (-9999) 9999 0) as [v [m|]];
      [by intros [= <-] | apply Hrandom].
  - rewrite (minimax_refines 9) by (done || lia). cbn [mbind result_bind].
    pose proof (ab_search_move 9 self cs true (-9999) 9999 0) as Hm.
    destruct (ab_search 9 self cs true (-9999) 9999 0) as [v m].
    by intros [= ->].
Qed.

(** X3. On a nine-cell list [best_move] never raises, at any difficulty and
    whatever the random source, and a cell it returns is an empty cell of the
    grid: the [place] that follows in [ai_turn] cannot fail. *)
Theorem best_move_returns_empty_cell (self : AI) (rnd : Rand) (cs : list cell) :
  length cs = 9 →
  (∃ r, best_move self rnd cs = Ok r) ∧
  ∀ i, best_move self rnd cs = Ok (Some i) → i < 9 ∧ cs !! i = Some None.
Proof.
  intros Hlen. split; [by apply best_move_total|].
  intros i. by apply best_move_elem.
Qed.

Lemma best_move_returns_empty_cell_witness :
  2 < 9 ∧ [X; X; None; None; O; None; None; None; None] !! 2 = Some None.
Proof.
  exact (proj2 (best_move_returns_empty_cell impossible_ai rnd0
                  [X; X; None; None; O; None; None; None; None] eq_refl)
           2 eq_refl).
Defined.

Lemma best_move_full (self : AI) (rnd : Rand) (cs : list cell) :
  (∀ i, cs !! i ≠ Some None) → best_move self rnd cs = Ok None.
Proof.
  intros Hfull. unfold best_move.
  by rewrite (proj2 (available_from_nil_iff 0 cs) Hfull).
Qed.

(** X4. On a board without empty cell [best_move] returns [None] at every
    difficulty; at Easy and Medium that is the only case: with an empty cell
    on a nine-cell board they return a cell, be the board decided or not. *)
Theorem best_move_none_iff_full (self : AI) (rnd : Rand) (cs : list cell) :
  length cs = 9 →
  ((∀ i, cs !! i ≠ Some None) → best_move self rnd cs = Ok None) ∧
  (difficulty self = "Easy"%string ∨ difficulty self = "Medium"%string →
   (best_move self rnd cs = Ok None ↔ ∀ i, cs !! i ≠ Some None)).
Proof.
  intros Hlen. split; [apply best_move_full|].
  intros Hd. split; [|apply best_move_full].
  intros Hnone i Hi.
  destruct (best_move_some_easy_medium self rnd cs i Hlen Hi Hd) as [j Hj].
  congruence.
Qed.

Lemma best_move_none_iff_full_witness :
  best_move medium_ai rnd0 [X; O; X; X; O; O; O; X; X] = Ok None.
Proof.
  apply (proj1 (best_move_none_iff_full medium_ai rnd0
                  [X; O; X; X; O; O; O; X; X] eq_refl)).
  intros i. do 9 (destruct i as [|i]; [discriminate|]). discriminate.
Defined.

(** ** Pruning does not change the value *)

Lemma minimax_exact (self : AI) (cs : list cell) (is_max : bool)
    (depth max_depth : Z) :
  length cs = 9 → marks_only self cs →
  (0 ≤ depth ≤ 100)%Z → (max_depth ≤ 100)%Z →
  ∃ mv, _minimax self cs is_max (-9999) 9999 depth max_depth
        = Ok ((mm_value (Z.to_nat (max_depth - depth)) self cs is_max depth, mv),
              cs).
Proof.
  intros Hlen Hm Hd Hmd.
  rewrite (minimax_refines (Z.to_nat (max_depth - depth))) by done.
  pose proof (ab_search_ok (Z.to_nat (max_depth - depth)) self cs is_max
                (-9999) 9999 depth) as Hok.
  pose proof (mm_value_bounds (Z.to_nat (max_depth - depth)) self cs is_max
                depth Hlen Hm) as Hb.
  destruct (ab_search _ self cs is_max _ _ depth) as [v mv]. exists mv.
  simpl in Hok. unfold ab_ok in Hok.
  assert (v = mm_value (Z.to_nat (max_depth - depth)) self cs is_max depth)
    as -> by lia.
  done.
Qed.

(** X5. On a nine-cell board of the two players' marks, [_minimax] called
    with the full window [(-9999, 9999)] returns exactly the minimax value of
    the position: what the alpha-beta [break]s skip never changes the
    result. *)
Theorem minimax_full_window_is_minimax (self : AI) (cs : list cell)
    (is_max : bool) (depth max_depth : Z) :
  length cs = 9 → marks_only self cs →
  (0 ≤ depth ≤ 100)%Z → (max_depth ≤ 100)%Z →
  ∃ mv, _minimax self cs is_max (-9999) 9999 depth max_depth
        = Ok ((mm_value (Z.to_nat (max_depth - depth)) self cs is_max depth, mv),
              cs).
Proof. apply minimax_exact. Qed.

Lemma minimax_full_window_is_minimax_witness :
  ∃ mv, _minimax impossible_ai [X; X; None; None; O; None; None; None; None]
          true (-9999) 9999 0 9
        = Ok ((mm_value 9 impossible_ai
                 [X; X; None; None; O; None; None; None; None] true 0, mv),
              [X; X; None; None; O; None; None; None; None]).
Proof.
  apply (minimax_full_window_is_minimax impossible_ai
           [X; X; None; None; O; None; None; None; None] true 0 9);
    [reflexivity | apply marks_only_block_board | lia | lia].
Defined.

(** ** The engine takes a win that is one move away *)

Lemma mm_value_depth_bounds (n : nat) (self : AI) :
  ∀ board is_max depth,
    length board = 9 → marks_only self board →
    (0 ≤ depth)%Z → (depth + Z.of_nat n ≤ 100)%Z →
    (-100 + depth ≤ mm_value n self board is_max depth ≤ 100 - depth)%Z.
Proof.
  induction n as [|n IH]; intros board is_max depth Hlen Hm Hd Hn;
    cbn [mm_value];
    (destruct (cell_eqb (outcome board) (Some (ai_mark self))) eqn:E1; [lia|]);
    (destruct (cell_eqb (outcome board) (Some (human_mark self))) eqn:E2; [lia|]);
    (destruct (cell_eqb (outcome board) (Some "Draw"%string)) eqn:E3; [lia|]);
    [lia|].
  apply cell_eqb_neq in E1, E2, E3.
  destruct (outcome_cases self board Hlen Hm)
    as [? | [? | [? | (_ & i & Hi & Hempty)]]]; [done..|].
  assert (∀ is_max' mark, mark = ai_mark self ∨ mark = human_mark self →
    Forall (λ v, -100 + (depth + 1) ≤ v ≤ 100 - (depth + 1))%Z
      (child_values (λ b, mm_value n self b is_max' (depth + 1)) mark board
         range9)) as Hchildren.
  { intros is_max' mark Hmark. apply child_values_Forall. intros j _ Hj.
    apply IH; [by rewrite length_insert | | lia | lia].
    by apply marks_only_insert. }
  destruct is_max.
  - pose proof (foldr_max_bounds (-100 + (depth + 1)) (100 - (depth + 1))
                  (-9999) _
                  (child_values_nonempty _ _ _ _ i
                     (proj2 (elem_of_range9 i) Hi) Hempty)
                  (Hchildren false (ai_mark self) (or_introl eq_refl))).
    lia.
  - pose proof (foldr_min_bounds (-100 + (depth + 1)) (100 - (depth + 1))
                  9999 _
                  (child_values_nonempty _ _ _ _ i
                     (proj2 (elem_of_range9 i) Hi) Hempty)
                  (Hchildren true (human_mark self) (or_intror eq_refl))).
    lia.
Qed.

Lemma reply_value_99 (n : nat) (self : AI) (b : list cell) :
  length b = 9 → marks_only self b → (Z.of_nat n + 1 ≤ 100)%Z →
  (mm_value n self b false 1 ≤ 99)%Z ∧
  (mm_value n self b false 1 = 99%Z ↔
   cell_eqb (outcome b) (Some (ai_mark self)) = true).
Proof.
  intros Hlen Hm Hn.
  pose proof (mm_value_depth_bounds n self b false 1 Hlen Hm) as Hb.
  split; [lia|].
  destruct (cell_eqb (outcome b) (Some (ai_mark self))) eqn:E1.
  { split; [done|]. intros _. destruct n; cbn [mm_value]; by rewrite E1. }
  split; [|done]. intros H99. exfalso. revert H99.
  destruct n as [|n]; cbn [mm_value]; rewrite E1;
    (destruct (cell_eqb (outcome b) (Some (human_mark self))) eqn:E2; [lia|]);
    (destruct (cell_eqb (outcome b) (Some "Draw"%string)) eqn:E3; [lia|]);
    [lia|].
  apply cell_eqb_neq in E1, E2, E3.
  destruct (outcome_cases self b Hlen Hm)
    as [? | [? | [? | (_ & i & Hi & Hempty)]]]; [done..|].
  pose proof (foldr_min_bounds (-98) 98 9999
    (child_values (λ b', mm_value n self b' true (1 + 1)) (human_mark self) b
       range9)
    (child_values_nonempty _ _ _ _ i (proj2 (elem_of_range9 i) Hi) Hempty))
    as Hmin.
  intros H99. rewrite H99 in Hmin.
  assert (-98 ≤ 99 ≤ 98)%Z; [|lia]. apply Hmin; [|lia].
  apply child_values_Forall. intros j _ Hj.
  pose proof (mm_value_depth_bounds n self
                (<[j := Some (human_mark self)]> b) true (1 + 1)) as Hc.
  rewrite length_insert in Hc.
  specialize (Hc Hlen (marks_only_insert _ _ _ _ Hm (or_intror eq_refl))).
  lia.
Qed.

(** What the search branch of [best_move] returns on a board in progress. *)
Lemma best_move_root (self : AI) (cs : list cell) :
  length cs = 9 → marks_only self cs → _check_winner cs = Ok None →
  difficulty self ≠ "Easy"%string →
  let n := if String.eqb (difficulty self) "Medium" then 3 else 8 in
  let value j := mm_value n self (<[j := Some (ai_mark self)]> cs) false 1 in
  ∃ i, (∀ rnd, coin rnd = false ∨ difficulty self ≠ "Medium"%string →
               best_move self rnd cs = Ok (Some i)) ∧
       i < 9 ∧ cs !! i = Some None ∧
       (∀ j, j < 9 → cs !! j = Some None → (value j ≤ value i)%Z) ∧
       (∀ j, j < i → cs !! j = Some None → (value j < value i)%Z).
Proof.
  intros Hlen Hm Hw Heasy n value.
  destruct (ab_search_root n self cs 0 Hlen Hm Hw)
    as (i & Heq & Hrest); [lia | subst n; destruct (String.eqb _ _); lia |].
  exists i. split; [|exact Hrest].
  intros rnd Hcoin. unfold best_move.
  destruct (in_progress_empty_cell self cs Hlen Hw) as (_ & i0 & _ & He0).
  destruct (available_from 0 cs) as [|a av] eqn:Hav;
    [by apply available_from_nonempty in He0|].
  apply String.eqb_neq in Heasy. rewrite Heasy.
  subst n. destruct (String.eqb_spec (difficulty self) "Medium") as [Hmed|Hmed].
  - destruct Hcoin as [-> | ?]; [|done].
    rewrite (minimax_refines 4) by (done || lia).
    cbn [mbind result_bind]. by rewrite Heq.
  - rewrite (minimax_refines 9) by (done || lia).
    cbn [mbind result_bind]. by rewrite Heq.
Qed.

Lemma wins_iff_outcome (self : AI) (b : list cell) :
  length b = 9 →
  (_check_winner b = Ok (Some (ai_mark self)) ↔
   cell_eqb (outcome b) (Some (ai_mark self)) = true).
Proof.
  intros Hlen. rewrite check_winner_total by done. rewrite cell_eqb_eq.
  split; [by intros [= ->] | by intros ->].
Qed.

Lemma immediate_win_taken (self : AI) (cs : list cell) (j0 : nat) :
  length cs = 9 → marks_only self cs → _check_winner cs = Ok None →
  difficulty self ≠ "Easy"%string →
  cs !! j0 = Some None →
  _check_winner (<[j0 := Some (ai_mark self)]> cs) = Ok (Some (ai_mark self)) →
  ∃ i, (∀ rnd, coin rnd = false ∨ difficulty self ≠ "Medium"%string →
               best_move self rnd cs = Ok (Some i)) ∧
       i ≤ j0 ∧ cs !! i = Some None ∧
       _check_winner (<[i := Some (ai_mark self)]> cs)
       = Ok (Some (ai_mark self)) ∧
       ∀ j, j < i → cs !! j = Some None →
            _check_winner (<[j := Some (ai_mark self)]> cs)
            ≠ Ok (Some (ai_mark self)).
Proof.
  intros Hlen Hm Hw Heasy Hj0 Hwin.
  destruct (best_move_root self cs Hlen Hm Hw Heasy)
    as (i & Hbm & Hi & He & Hmax & Hfirst).
  set (n := if String.eqb (difficulty self) "Medium" then 3 else 8) in *.
  assert (Z.of_nat n + 1 ≤ 100)%Z as Hn
    by (subst n; destruct (String.eqb _ _); lia).
  assert (∀ j, cs !! j = Some None →
    (mm_value n self (<[j := Some (ai_mark self)]> cs) false 1 ≤ 99)%Z ∧
    (mm_value n self (<[j := Some (ai_mark self)]> cs) false 1 = 99%Z ↔
     _check_winner (<[j := Some (ai_mark self)]> cs)
     = Ok (Some (ai_mark self)))) as Hval.
  { intros j Hj. rewrite wins_iff_outcome by (by rewrite length_insert).
    apply reply_value_99; [by rewrite length_insert | | done].
    apply marks_only_insert; auto. }
  assert (j0 < 9) as Hj09 by (apply lookup_lt_Some in Hj0; lia).
  pose proof (proj2 (proj2 (Hval j0 Hj0)) Hwin) as H0.
  pose proof (Hmax j0 Hj09 Hj0) as Hle.
  destruct (Hval i He) as [Hi99 Hiff].
  exists i. split; [exact Hbm|]. split.
  - destruct (decide (i ≤ j0)) as [|Hgt]; [done|].
    specialize (Hfirst j0 ltac:(lia) Hj0). lia.
  - split; [done|]. split; [apply Hiff; lia|].
    intros j Hj Hej Hwj. specialize (Hfirst j Hj Hej).
    pose proof (proj2 (proj2 (Hval j Hej)) Hwj). lia.
Qed.

(** X6. When the engine can complete a triple of its own mark with one move,
    the search branch of [best_move] (Impossible, and Medium with the random
    branch off) returns such a move: the lowest winning cell. *)
Theorem engine_takes_immediate_win (self : AI) (cs : list cell) (j0 : nat) :
  length cs = 9 → marks_only self cs → _check_winner cs = Ok None →
  difficulty self ≠ "Easy"%string →
  cs !! j0 = Some None →
  _check_winner (<[j0 := Some (ai_mark self)]> cs) = Ok (Some (ai_mark self)) →
  ∃ i, (∀ rnd, coin rnd = false ∨ difficulty self ≠ "Medium"%string →
               best_move self rnd cs = Ok (Some i)) ∧
       i ≤ j0 ∧ cs !! i = Some None ∧
       _check_winner (<[i := Some (ai_mark self)]> cs)
       = Ok (Some (ai_mark self)) ∧
       ∀ j, j < i → cs !! j = Some None →
            _check_winner (<[j := Some (ai_mark self)]> cs)
            ≠ Ok (Some (ai_mark self)).
Proof. apply immediate_win_taken. Qed.

Lemma marks_only_win_board :
  marks_only impossible_ai [O; O; None; X; X; None; None; None; X].
Proof.
  intros i m H.
  repeat (destruct i as [|i]; simpl in H;
          [first [discriminate | injection H as <-; first [by left | by right]]|]).
  discriminate.
Qed.

Lemma engine_takes_immediate_win_witness :
  ∃ i, best_move impossible_ai rnd0 [O; O; None; X; X; None; None; None; X]
       = Ok (Some i) ∧ i ≤ 2 ∧
       _check_winner (<[i := Some PLAYER_O]>
                        [O; O; None; X; X; None; None; None; X])
       = Ok (Some PLAYER_O).
Proof.
  assert (difficulty impossible_ai ≠ "Easy"%string) as Hd by done.
  destruct (engine_takes_immediate_win impossible_ai
              [O; O; None; X; X; None; None; None; X] 2
              eq_refl marks_only_win_board eq_refl Hd eq_refl eq_refl)
    as (i & Hbm & Hi & _ & Hwin & _).
  exists i. split; [apply Hbm; by left|]. split; [exact Hi | exact Hwin].
Defined.

(** ** The turn controller: what [check_end] does *)

Lemma winner_None_combo (cs : list cell) (combo : option triple) :
  winner cs = Ok (None, combo) → combo = None.
Proof.
  intros H. apply winner_inv in H. destruct combo as [t|]; [|done].
  by destruct H as (_ & m & ? & _).
Qed.

Lemma check_end_in_progress (g : Game) :
  in_progress (cells (board g)) → check_end g = Ok g.
Proof. intros H. unfold check_end. by rewrite H. Qed.

Lemma score_key_counter (w : string) :
  score_key w = "Player"%string ∨ score_key w = "AI"%string ∨
  score_key w = "Draws"%string.
Proof.
  unfold score_key. destruct (String.eqb w PLAYER_X); [auto|].
  destruct (String.eqb w PLAYER_O); auto.
Qed.

Lemma check_end_inv (g g' : Game) :
  check_end g = Ok g' →
  cells (board g') = cells (board g) ∧
  current_player g' = current_player g ∧ ai g' = ai g ∧
  vs_ai g' = vs_ai g ∧ last_move_time g' = last_move_time g ∧
  ai_delay_until g' = ai_delay_until g ∧
  ((in_progress (cells (board g)) ∧ g' = g) ∨
   (∃ w combo v,
      winner (cells (board g)) = Ok (Some w, combo) ∧
      mode g' = "gameover"%string ∧ game_winner g' = Some w ∧
      game_winning_combo g' = combo ∧ winning_combo (board g') = combo ∧
      scores g !! score_key w = Some v ∧
      scores g' = <[score_key w := (v + 1)%Z]> (scores g))).
Proof.
  unfold check_end.
  destruct (winner (cells (board g))) as [[w combo]|] eqn:Hw;
    cbn [mbind result_bind]; [|done].
  destruct w as [s|].
  - fold (score_key s). unfold incr.
    destruct (scores g !! score_key s) as [v|] eqn:Hv;
      cbn [mbind result_bind]; [|done].
    intros [= <-]. cbn. repeat (split; [done|]). right.
    by exists s, combo, v.
  - intros [= <-]. repeat (split; [done|]). left. split; [|done].
    unfold in_progress. by rewrite Hw, (winner_None_combo _ _ Hw).
Qed.

Lemma has_scores_key (sc : gmap string Z) (w : string) :
  has_scores sc → is_Some (sc !! score_key w).
Proof.
  intros (? & ? & ?).
  destruct (score_key_counter w) as [-> | [-> | ->]]; done.
Qed.

Lemma has_scores_insert (sc : gmap string Z) (key : string) (v : Z) :
  has_scores sc → has_scores (<[key := v]> sc).
Proof.
  intros (H1 & H2 & H3). unfold has_scores.
  rewrite !lookup_insert_is_Some.
  repeat split;
    (destruct (decide (key = "Player"%string));
     destruct (decide (key = "AI"%string));
     destruct (decide (key = "Draws"%string)); auto).
Qed.

Lemma check_end_total (g : Game) :
  length (cells (board g)) = 9 → has_scores (scores g) →
  ∃ g', check_end g = Ok g'.
Proof.
  intros Hlen Hsc. unfold check_end.
  destruct (winner_total _ Hlen) as (w & combo & ->).
  cbn [mbind result_bind]. destruct w as [s|]; [|by eexists].
  fold (score_key s). destruct (has_scores_key _ s Hsc) as [v Hv].
  unfold incr. rewrite Hv. by eexists.
Qed.

Lemma total_score_incr (sc : gmap string Z) (w : string) (v : Z) :
  sc !! score_key w = Some v →
  total_score (<[score_key w := (v + 1)%Z]> sc) = (total_score sc + 1)%Z.
Proof.
  intros Hv. unfold total_score.
  destruct (score_key_counter w) as [Hk | [Hk | Hk]]; rewrite Hk in *;
    rewrite Hv; rewrite ?lookup_insert_eq; rewrite ?lookup_insert_ne by done;
    simpl; lia.
Qed.

(** ** The turn controller: what a click and an engine frame do *)

Lemma click_cases (g g' : Game) (now : Z) (hit : option (Z * Z)) :
  handle_click_board g now hit = Ok g' →
  (g' = g ∧
   (mode g ≠ "playing"%string ∨
    match hit with
    | None => True
    | Some (col, row) =>
        ¬ (0 ≤ row * 3 + col < 9)%Z ∨
        ∃ m, cells (board g) !! Z.to_nat (row * 3 + col) = Some (Some m)
    end)) ∨
  ∃ col row,
    hit = Some (col, row) ∧ mode g = "playing"%string ∧
    (0 ≤ row * 3 + col < 9)%Z ∧
    cells (board g) !! Z.to_nat (row * 3 + col) = Some None ∧
    cells (board g')
    = <[Z.to_nat (row * 3 + col) := Some (current_player g)]>
        (cells (board g)) ∧
    ai g' = ai g ∧ vs_ai g' = vs_ai g ∧ last_move_time g' = now ∧
    ((in_progress (cells (board g')) ∧ mode g' = "playing"%string ∧
      scores g' = scores g ∧
      current_player g'
      = (if vs_ai g then PLAYER_O
         else if String.eqb (current_player g) PLAYER_X then PLAYER_O
              else PLAYER_X) ∧
      ai_delay_until g'
      = (if vs_ai g then (now + 340)%Z else ai_delay_until g)) ∨
     (∃ w combo v,
        winner (cells (board g')) = Ok (Some w, combo) ∧
        mode g' = "gameover"%string ∧ game_winner g' = Some w ∧
        current_player g' = current_player g ∧
        ai_delay_until g' = ai_delay_until g ∧
        scores g !! score_key w = Some v ∧
        scores g' = <[score_key w := (v + 1)%Z]> (scores g))).
Proof.
  unfold handle_click_board.
  destruct (String.eqb_spec (mode g) "playing") as [Hmode|Hmode]; cbn [negb];
    [|intros [= <-]; left; by auto].
  destruct hit as [[col row]|]; [|intros [= <-]; left; by auto].
  destruct (Z.leb_spec 0 (row * 3 + col)); cbn [andb];
    [|intros [= <-]; left; split; [done|]; right; left; lia].
  destruct (Z.ltb_spec (row * 3 + col) 9);
    [|intros [= <-]; left; split; [done|]; right; left; lia].
  destruct (getitem (cells (board g)) (Z.to_nat (row * 3 + col)))
    as [c|] eqn:Hc; cbn [mbind result_bind]; [|done].
  apply getitem_Ok in Hc.
  destruct c as [m|]; cbn [is_none];
    [intros [= <-]; left; split; [done|]; right; right; by exists m|].
  rewrite place_succeeds by (done || lia). cbn [mbind result_bind].
  match goal with |- context [check_end ?g0] =>
    destruct (check_end g0) as [g1|] eqn:Hce; cbn [mbind result_bind]; [|done]
  end.
  apply check_end_inv in Hce
    as (Hcells & Hcur & Hai & Hvs & Hlast & Hdelay & Hres).
  cbn in Hcells, Hcur, Hai, Hvs, Hlast, Hdelay, Hres.
  destruct Hres as [[Hin ->] | (w & combo & v & Hw & Hm & Hgw & _ & _ & Hv & Hs)].
  - cbn. rewrite Hmode. cbn. intros [= <-]. right. exists col, row. cbn.
    repeat (split; [done || lia|]). left. by repeat split.
  - rewrite Hm. cbn. intros [= <-]. right. exists col, row.
    rewrite Hcells, Hai, Hvs, Hlast.
    repeat (split; [done || lia|]). right. exists w, combo, v.
    by repeat split.
Qed.

Lemma in_progress_check_winner (cs : list cell) :
  in_progress cs → _check_winner cs = Ok None.
Proof.
  unfold in_progress, winner, _check_winner.
  rewrite check_winner_loop_winner_loop.
  destruct (winner_loop cs WIN_COMBINATIONS) as [[[m t]|]|];
    cbn [mbind result_bind fmap result_fmap option_fmap option_map fst];
    [done | | done].
  by destruct (all_not_none cs).
Qed.

Lemma best_move_in_progress (self : AI) (rnd : Rand) (cs : list cell) :
  length cs = 9 → marks_only self cs → in_progress cs →
  ∃ i, best_move self rnd cs = Ok (Some i) ∧ i < 9 ∧ cs !! i = Some None.
Proof.
  intros Hlen Hm Hin. apply in_progress_check_winner in Hin.
  assert (∃ i, best_move self rnd cs = Ok (Some i)) as [i Hi].
  { destruct (in_progress_empty_cell self cs Hlen Hin) as (_ & j & _ & Hj).
    destruct (decide (difficulty self = "Easy"%string)) as [He|He];
      [apply (best_move_some_easy_medium self rnd cs j); auto|].
    destruct (decide (difficulty self = "Medium"%string)) as [Hd|Hd];
      [apply (best_move_some_easy_medium self rnd cs j); auto|].
    destruct (best_move_root self cs Hlen Hm Hin He) as (i & Hi & _).
    exists i. apply Hi. by right. }
  exists i. split; [done|]. by apply (best_move_elem self rnd).
Qed.

Lemma ai_turn_cases (g g' : Game) (now : Z) (rnd : Rand) :
  length (cells (board g)) = 9 →
  ai_turn g now rnd = Ok g' →
  (g' = g ∧
   (vs_ai g = false ∨ mode g ≠ "playing"%string ∨
    current_player g ≠ PLAYER_O ∨ (now < ai_delay_until g)%Z)) ∨
  (vs_ai g = true ∧ mode g = "playing"%string ∧
   current_player g = PLAYER_O ∧ (ai_delay_until g ≤ now)%Z ∧
   ∃ move,
     best_move (ai g) rnd (cells (board g)) = Ok move ∧
     (∀ m, move = Some m → m < 9 ∧ cells (board g) !! m = Some None) ∧
     cells (board g')
     = match move with
       | Some m => <[m := Some PLAYER_O]> (cells (board g))
       | None => cells (board g)
       end ∧
     ai g' = ai g ∧ vs_ai g' = vs_ai g ∧ last_move_time g' = now ∧
     ai_delay_until g' = ai_delay_until g ∧
     ((in_progress (cells (board g')) ∧ mode g' = "playing"%string ∧
       scores g' = scores g ∧ current_player g' = PLAYER_X) ∨
      (∃ w combo v,
         winner (cells (board g')) = Ok (Some w, combo) ∧
         mode g' = "gameover"%string ∧ game_winner g' = Some w ∧
         current_player g' = PLAYER_O ∧
         scores g !! score_key w = Some v ∧
         scores g' = <[score_key w := (v + 1)%Z]> (scores g)))).
Proof.
  intros Hlen. unfold ai_turn.
  destruct (vs_ai g) eqn:Hvs; cbn [negb orb];
    [|intros [= <-]; left; by auto].
  destruct (String.eqb_spec (mode g) "playing") as [Hmode|Hmode]; cbn [negb];
    [|intros [= <-]; left; by auto].
  destruct (String.eqb_spec (current_player g) PLAYER_O) as [Hcur|Hcur];
    cbn [negb]; [|intros [= <-]; left; by auto].
  destruct (Z.ltb_spec now (ai_delay_until g));
    [intros [= <-]; left; by auto 6|].
  destruct (best_move (ai g) rnd (cells (board g))) as [move|] eqn:Hbm;
    cbn [mbind result_bind]; [|done].
  assert (∀ m, move = Some m → m < 9 ∧ cells (board g) !! m = Some None)
    as Hmove.
  { intros m ->. by apply (best_move_elem (ai g) rnd). }
  assert (∃ b, match move with
               | Some m => fst <$> place (board g) now (Z.of_nat m) PLAYER_O
               | None => Ok (board g)
               end = Ok b ∧
               cells b = match move with
                         | Some m => <[m := Some PLAYER_O]> (cells (board g))
                         | None => cells (board g)
                         end) as (b & -> & Hb).
  { destruct move as [m|]; [|by eexists].
    destruct (Hmove m eq_refl) as [Hm9 Hempty].
    rewrite place_succeeds by (rewrite ?Nat2Z.id; done || lia).
    eexists. split; [done|]. cbn. by rewrite Nat2Z.id. }
  cbn [mbind result_bind].
  match goal with |- context [check_end ?g0] =>
    destruct (check_end g0) as [g1|] eqn:Hce; cbn [mbind result_bind]; [|done]
  end.
  apply check_end_inv in Hce
    as (Hcells & Hcur' & Hai & Hvs' & Hlast & Hdelay & Hres).
  cbn in Hcells, Hcur', Hai, Hvs', Hlast, Hdelay, Hres.
  destruct Hres as [[Hin ->] | (w & combo & v & Hw & Hm & Hgw & _ & _ & Hv & Hs)].
  - cbn. rewrite Hmode. cbn. intros [= <-]. right. cbn.
    repeat (split; [done|]). exists move. rewrite <- Hb.
    repeat (split; [done|]). left. by repeat split.
  - rewrite Hm. cbn. intros [= <-]. right.
    repeat (split; [done|]). exists move.
    rewrite Hcells, Hai, Hvs', Hlast, Hdelay, Hcur', <- Hb.
    repeat (split; [done|]). right. exists w, combo, v.
    by repeat split.
Qed.

(** ** The turn controller: the state it keeps *)

Lemma wf_marks_only (g : Game) :
  wf_game g → marks_only (ai g) (cells (board g)).
Proof.
  intros (_ & Hm & _ & Ha & Hh & _) i m Hi. rewrite Ha, Hh.
  destruct (Hm i m Hi); auto.
Qed.

Lemma xo_marks_insert (cs : list cell) (i : nat) (m : string) :
  (∀ j m', cs !! j = Some (Some m') → m' = PLAYER_X ∨ m' = PLAYER_O) →
  m = PLAYER_X ∨ m = PLAYER_O →
  ∀ j m', <[i := Some m]> cs !! j = Some (Some m') →
          m' = PLAYER_X ∨ m' = PLAYER_O.
Proof.
  intros Hcs Hm j m' Hj.
  apply list_lookup_insert_Some in Hj as [(_ & [= <-] & _) | [_ Hj]];
    [done | by apply (Hcs j)].
Qed.

Lemma fresh_cells_no_mark (i : nat) (m : string) :
  replicate 9 (None : cell) !! i = Some (Some m) → False.
Proof. intros Hi. by apply lookup_replicate in Hi as [? _]. Qed.

Lemma in_progress_fresh : in_progress (replicate 9 None).
Proof. reflexivity. Qed.

Lemma Game_init_wf : wf_game Game_init.
Proof.
  split; [reflexivity|]. split.
  { intros i m Hi. exfalso. exact (fresh_cells_no_mark i m Hi). }
  split; [by left|]. split; [done|]. split; [done|]. split; [|done].
  unfold has_scores. cbn. rewrite !lookup_insert_is_Some. auto 10.
Qed.

Lemma reset_game_wf (g : Game) : wf_game g → wf_game (reset_game g).
Proof.
  intros (_ & _ & _ & Ha & Hh & Hs & _).
  split; [reflexivity|]. split.
  { intros i m Hi. exfalso. exact (fresh_cells_no_mark i m Hi). }
  split; [by left|]. split; [done|]. split; [done|]. split; [done|].
  intros _. apply in_progress_fresh.
Qed.

Lemma set_mode_vs_wf (g : Game) (against_ai : bool) :
  wf_game g → wf_game (set_mode_vs g against_ai).
Proof.
  intros (_ & _ & _ & Ha & Hh & Hs & _).
  split; [reflexivity|]. split.
  { intros i m Hi. exfalso. exact (fresh_cells_no_mark i m Hi). }
  split; [by left|]. split; [done|]. split; [done|]. split; [done|].
  intros _. apply in_progress_fresh.
Qed.

Lemma open_menu_wf (g : Game) : wf_game g → wf_game (open_menu g).
Proof.
  intros (Hl & Hm & Hc & Ha & Hh & Hs & _).
  repeat (split; [done|]). done.
Qed.

Lemma click_wf (g g' : Game) (now : Z) (hit : option (Z * Z)) :
  wf_game g → handle_click_board g now hit = Ok g' → wf_game g'.
Proof.
  intros Hwf Hclick. pose proof Hwf as (Hl & Hm & Hc & Ha & Hh & Hs & Hp).
  apply click_cases in Hclick
    as [[-> _] | (col & row & _ & _ & _ & _ & Hcells & Hai & _ & _ & Hres)];
    [done|].
  unfold wf_game. rewrite Hcells, Hai, length_insert.
  split; [done|]. split; [by apply xo_marks_insert|].
  rewrite <- Hcells.
  destruct Hres as [(Hin & _ & -> & -> & _)
                   | (w & combo & v & _ & Hmode & _ & -> & _ & _ & ->)].
  - split; [|done]. destruct (vs_ai g); [by right|].
    destruct (String.eqb _ _); [by right | by left].
  - repeat (split; [done|]). split; [by apply has_scores_insert|].
    by rewrite Hmode.
Qed.

Lemma click_total (g : Game) (now : Z) (hit : option (Z * Z)) :
  length (cells (board g)) = 9 → has_scores (scores g) →
  ∃ g', handle_click_board g now hit = Ok g'.
Proof.
  intros Hl Hs. unfold handle_click_board.
  destruct (negb _); [by eexists|].
  destruct hit as [[col row]|]; [|by eexists].
  destruct (Z.leb_spec 0 (row * 3 + col)); cbn [andb]; [|by eexists].
  destruct (Z.ltb_spec (row * 3 + col) 9); [|by eexists].
  destruct (getitem_lt (cells (board g)) (Z.to_nat (row * 3 + col)))
    as (c & Hc & ->); [lia|].
  cbn [mbind result_bind]. destruct c as [m|]; cbn [is_none]; [by eexists|].
  rewrite place_succeeds by (done || lia). cbn [mbind result_bind].
  match goal with |- context [check_end ?g0] =>
    destruct (check_end_total g0) as [g1 ->];
      [cbn; by rewrite length_insert | done |]
  end.
  cbn [mbind result_bind]. destruct (negb _); by eexists.
Qed.

Lemma ai_turn_wf (g g' : Game) (now : Z) (rnd : Rand) :
  wf_game g → ai_turn g now rnd = Ok g' → wf_game g'.
Proof.
  intros Hwf Hturn. pose proof Hwf as (Hl & Hm & Hc & Ha & Hh & Hs & Hp).
  apply ai_turn_cases in Hturn
    as [[-> _]
       | (_ & _ & _ & _ & move & _ & _ & Hcells & Hai & _ & _ & _ & Hres)];
    [done | | done].
  assert (length (cells (board g')) = 9 ∧
          ∀ j m', cells (board g') !! j = Some (Some m') →
                  m' = PLAYER_X ∨ m' = PLAYER_O) as [Hl' Hm'].
  { rewrite Hcells. destruct move as [m|]; [|done].
    rewrite length_insert. split; [done|]. apply xo_marks_insert; auto. }
  unfold wf_game. rewrite Hai.
  destruct Hres as [(Hin & _ & -> & ->)
                   | (w & combo & v & _ & Hmode & _ & -> & _ & ->)].
  - repeat (split; [done|]). split; [by left|]. repeat (split; [done|]). done.
  - repeat (split; [done|]). split; [by right|].
    repeat (split; [done|]). split; [by apply has_scores_insert|].
    by rewrite Hmode.
Qed.

Lemma ai_turn_total (g : Game) (now : Z) (rnd : Rand) :
  length (cells (board g)) = 9 → has_scores (scores g) →
  ∃ g', ai_turn g now rnd = Ok g'.
Proof.
  intros Hl Hs. unfold ai_turn.
  destruct (_ || _); [by eexists|].
  destruct (negb _); [by eexists|].
  destruct (_ <? _)%Z; [by eexists|].
  destruct (best_move_total (ai g) rnd _ Hl) as [move Hbm]. rewrite Hbm.
  cbn [mbind result_bind].
  assert (∃ b, match move with
               | Some m => fst <$> place (board g) now (Z.of_nat m) PLAYER_O
               | None => Ok (board g)
               end = Ok b ∧ length (cells b) = 9) as (b & -> & Hb).
  { destruct move as [m|]; [|by eexists].
    destruct (best_move_elem (ai g) rnd _ m Hl Hbm) as [Hm9 Hempty].
    rewrite place_succeeds by (rewrite ?Nat2Z.id; done || lia).
    eexists. split; [done|]. cbn. by rewrite length_insert. }
  cbn [mbind result_bind].
  match goal with |- context [check_end ?g0] =>
    destruct (check_end_total g0) as [g1 ->]; [done | done |]
  end.
  cbn [mbind result_bind]. destruct (negb _); by eexists.
Qed.

Lemma step_wf (g : Game) (i : input) :
  wf_game g → ∃ g', step g i = Ok g' ∧ wf_game g'.
Proof.
  intros Hwf. pose proof Hwf as (Hl & _ & _ & _ & _ & Hs & _).
  destruct i as [now hit | now rnd | | | |]; cbn [step].
  - destruct (click_total g now hit Hl Hs) as [g' Hg'].
    exists g'. split; [done|]. by apply (click_wf g g' now hit).
  - destruct (ai_turn_total g now rnd Hl Hs) as [g' Hg'].
    exists g'. split; [done|]. by apply (ai_turn_wf g g' now rnd).
  - eexists. split; [done|]. by apply reset_game_wf.
  - eexists. split; [done|]. by apply open_menu_wf.
  - eexists. split; [done|]. by apply set_mode_vs_wf.
  - eexists. split; [done|]. by apply set_mode_vs_wf.
Qed.

Lemma steps_wf (inputs : list input) :
  ∀ g, wf_game g → ∃ g', steps g inputs = Ok g' ∧ wf_game g'.
Proof.
  induction inputs as [|i rest IH]; intros g Hwf; [by exists g|].
  destruct (step_wf g i Hwf) as (g1 & Hg1 & Hwf1).
  destruct (IH g1 Hwf1) as (g' & Hg' & Hwf').
  exists g'. split; [|done]. cbn [steps]. rewrite Hg1. done.
Qed.

(** X7. From a well-formed state, and the state [__init__] builds is one, no
    sequence of board clicks, engine frames, restarts and menu choices makes
    a handler raise, and the state stays well-formed: nine cells that hold no
    other mark than X and O, the three counters present in [scores], and a
    board without result whenever the mode is ['playing']. *)
Theorem controller_never_raises (g : Game) (inputs : list input) :
  wf_game g → ∃ g', steps g inputs = Ok g' ∧ wf_game g'.
Proof. intros Hwf. by apply steps_wf. Qed.

Lemma controller_never_raises_witness :
  ∃ g', steps Game_init
          [PvAI; Click 0 (Some (1, 1)%Z); Tick 400 rnd0; Restart; Menu; PvP]
        = Ok g' ∧ wf_game g'.
Proof. exact (controller_never_raises Game_init _ Game_init_wf). Defined.

(** ** The turn controller: scores *)

Lemma step_scores (g g' : Game) (i : input) :
  wf_game g → step g i = Ok g' →
  (ends_round g g' ∧
   ∃ w combo v,
     winner (cells (board g')) = Ok (Some w, combo) ∧
     game_winner g' = Some w ∧
     scores g !! score_key w = Some v ∧
     scores g' = <[score_key w := (v + 1)%Z]> (scores g) ∧
     total_score (scores g') = (total_score (scores g) + 1)%Z) ∨
  (¬ ends_round g g' ∧ scores g' = scores g).
Proof.
  intros (Hl & _) Hstep. unfold ends_round.
  assert (∀ m : string, m ≠ "gameover"%string →
            ¬ (mode g = "playing"%string ∧ m = "gameover"%string))
    as Hnot by (intros m Hm [_ ?]; done).
  assert (¬ (mode g = "playing"%string ∧ mode g = "gameover"%string))
    as Hsame by (intros [-> ?]; done).
  destruct i as [now hit | now rnd | | | |]; cbn [step] in Hstep.
  - apply click_cases in Hstep
      as [[-> _] | (col & row & _ & Hmode & _ & _ & _ & _ & _ & _ & Hres)];
      [by right|].
    destruct Hres as [(_ & Hm' & -> & _)
                     | (w & combo & v & Hw & Hm' & Hgw & _ & _ & Hv & Hs)].
    + right. split; [|done]. apply Hnot. by rewrite Hm'.
    + left. split; [done|]. exists w, combo, v.
      repeat (split; [done|]). rewrite Hs. by apply total_score_incr.
  - apply ai_turn_cases in Hstep
      as [[-> _] | (_ & Hmode & _ & _ & move & _ & _ & _ & _ & _ & _ & _ & Hres)];
      [by right | | done].
    destruct Hres as [(_ & Hm' & -> & _)
                     | (w & combo & v & Hw & Hm' & Hgw & _ & Hv & Hs)].
    + right. split; [|done]. apply Hnot. by rewrite Hm'.
    + left. split; [done|]. exists w, combo, v.
      repeat (split; [done|]). rewrite Hs. by apply total_score_incr.
  - injection Hstep as <-. right. split; [by apply Hnot | done].
  - injection Hstep as <-. right. split; [by apply Hnot | done].
  - injection Hstep as <-. right. split; [by apply Hnot | done].
  - injection Hstep as <-. right. split; [by apply Hnot | done].
Qed.

(** X8. A round is counted exactly once, at the call that ends it: a call of
    a handler on a well-formed state either takes the mode from ['playing']
    to ['gameover'], and then it raises by one the counter of the result
    [winner] reports for the new board (['Player'] for X, ['AI'] for O also
    in a two-player round, ['Draws'] otherwise) and stores that result, or it
    leaves [scores] as they are. *)
Theorem round_counted_once (g g' : Game) (i : input) :
  wf_game g → step g i = Ok g' →
  (ends_round g g' ∧
   ∃ w combo v,
     winner (cells (board g')) = Ok (Some w, combo) ∧
     game_winner g' = Some w ∧
     scores g !! score_key w = Some v ∧
     scores g' = <[score_key w := (v + 1)%Z]> (scores g) ∧
     total_score (scores g') = (total_score (scores g) + 1)%Z) ∨
  (¬ ends_round g g' ∧ scores g' = scores g).
Proof. apply step_scores. Qed.

Lemma play_wf (inputs : list input) : wf_game (play inputs).
Proof.
  unfold play.
  by destruct (steps_wf inputs Game_init Game_init_wf) as (g & -> & Hwf).
Qed.

Lemma round_counted_once_witness :
  ∃ g', step match_point (Click 5 (Some (2, 0)%Z)) = Ok g' ∧
        ends_round match_point g' ∧ game_winner g' = X ∧
        scores g' !! "Player"%string = Some 1%Z ∧
        total_score (scores g') = 1%Z.
Proof.
  assert (∃ g', step match_point (Click 5 (Some (2, 0)%Z)) = Ok g' ∧
                mode g' = "gameover"%string ∧ game_winner g' = X ∧
                scores g' !! "Player"%string = Some 1%Z)
    as (g' & Hstep & Hmode & Hw & Hp).
  { eexists. split; [vm_compute; reflexivity|].
    split; [vm_compute; reflexivity|]. split; vm_compute; reflexivity. }
  exists g'. split; [exact Hstep|].
  destruct (round_counted_once match_point g' (Click 5 (Some (2, 0)%Z))
              (play_wf _) Hstep)
    as [(He & w & combo & v & _ & _ & _ & _ & Ht) | [Hn _]].
  - split; [exact He|]. split; [exact Hw|]. split; [exact Hp|].
    rewrite Ht. vm_compute; reflexivity.
  - exfalso. apply Hn. split; [vm_compute; reflexivity | exact Hmode].
Defined.

(** ** The turn controller: outside a round, and between the two players *)

Lemma ai_turn_not_playing (g : Game) (now : Z) (rnd : Rand) :
  mode g ≠ "playing"%string → ai_turn g now rnd = Ok g.
Proof.
  intros Hm. unfold ai_turn. apply String.eqb_neq in Hm. rewrite Hm.
  by rewrite orb_true_r.
Qed.

Lemma steps_not_playing (inputs : list input) (g : Game) :
  mode g ≠ "playing"%string → Forall (λ i, is_play i = true) inputs →
  steps g inputs = Ok g.
Proof.
  intros Hm Hin. induction Hin as [|i rest Hi _ IH]; [done|].
  cbn [steps].
  destruct i as [now hit | now rnd | | | |]; try discriminate Hi; cbn [step].
  - by rewrite click_not_playing.
  - by rewrite ai_turn_not_playing.
Qed.

(** X9. Outside a round nothing is played: while the mode is ['menu'] or
    ['gameover'], no sequence of board clicks and engine frames changes any
    field of the state; only [reset_game] and the menu callbacks start a
    round again. *)
Theorem no_play_outside_a_round (g : Game) (inputs : list input) :
  mode g ≠ "playing"%string → Forall (λ i, is_play i = true) inputs →
  steps g inputs = Ok g.
Proof. apply steps_not_playing. Qed.

Lemma no_play_outside_a_round_witness :
  steps (open_menu match_point)
    [Click 6 (Some (2, 0)%Z); Tick 400 rnd0; Click 401 (Some (2, 2)%Z)]
  = Ok (open_menu match_point).
Proof.
  apply (no_play_outside_a_round (open_menu match_point)); [done|].
  repeat constructor.
Defined.

Lemma click_places (g : Game) (now col row : Z) :
  wf_game g → mode g = "playing"%string →
  (0 ≤ row * 3 + col < 9)%Z →
  cells (board g) !! Z.to_nat (row * 3 + col) = Some None →
  ∃ g', handle_click_board g now (Some (col, row)) = Ok g' ∧
        cells (board g')
        = <[Z.to_nat (row * 3 + col) := Some (current_player g)]>
            (cells (board g)) ∧
        vs_ai g' = vs_ai g ∧ last_move_time g' = now ∧
        ((in_progress (cells (board g')) ∧ mode g' = "playing"%string ∧
          current_player g'
          = (if vs_ai g then PLAYER_O
             else if String.eqb (current_player g) PLAYER_X then PLAYER_O
                  else PLAYER_X) ∧
          ai_delay_until g'
          = (if vs_ai g then (now + 340)%Z else ai_delay_until g)) ∨
         (¬ in_progress (cells (board g')) ∧ mode g' = "gameover"%string ∧
          current_player g' = current_player g)).
Proof.
  intros (Hl & _ & _ & _ & _ & Hs & _) Hmode Hidx Hempty.
  destruct (click_total g now (Some (col, row)) Hl Hs) as [g' Hg'].
  exists g'. split; [done|].
  apply click_cases in Hg'
    as [[_ [? | [? | [m Hm]]]]
       | (col' & row' & [= <- <-] & _ & _ & _ & Hcells & _ & Hvs & Hlast & Hres)];
    [done | done | congruence |].
  repeat (split; [done|]).
  destruct Hres as [(Hin & Hm' & _ & Hcur & Hdelay)
                   | (w & combo & v & Hw & Hm' & _ & Hcur & _)].
  - left. by repeat split.
  - right. split; [|done]. unfold in_progress. by rewrite Hw.
Qed.

Lemma click_then_wait (g : Game) (now col row : Z) :
  wf_game g → mode g = "playing"%string → vs_ai g = true →
  (0 ≤ row * 3 + col < 9)%Z →
  cells (board g) !! Z.to_nat (row * 3 + col) = Some None →
  ∃ g', handle_click_board g now (Some (col, row)) = Ok g' ∧
        (mode g' = "gameover"%string ∨
         (mode g' = "playing"%string ∧ current_player g' = PLAYER_O ∧
          ai_delay_until g' = (now + 340)%Z ∧
          ∀ now' rnd, (now' < now + 340)%Z → ai_turn g' now' rnd = Ok g')).
Proof.
  intros Hwf Hmode Hvs Hidx Hempty.
  destruct (click_places g now col row Hwf Hmode Hidx Hempty)
    as (g' & Hg' & _ & Hvs' & _ & Hres).
  exists g'. split; [done|]. rewrite Hvs in *.
  destruct Hres as [(_ & Hm' & Hcur & Hdelay) | (_ & Hm' & _)]; [right | by left].
  repeat (split; [done|]). intros now' rnd Hnow. unfold ai_turn.
  rewrite Hvs', Hm', Hcur, Hdelay. cbn.
  by destruct (Z.ltb_spec now' (now + 340)); [|lia].
Qed.

(** X10. Against the engine, a click on an empty cell of a round in progress
    either ends the round or hands the turn to O and arms the delay: the
    engine's frame does nothing, whatever the random source, until 340 ticks
    after the click. *)
Theorem engine_waits_340_ticks (g : Game) (now col row : Z) :
  wf_game g → mode g = "playing"%string → vs_ai g = true →
  (0 ≤ row * 3 + col < 9)%Z →
  cells (board g) !! Z.to_nat (row * 3 + col) = Some None →
  ∃ g', handle_click_board g now (Some (col, row)) = Ok g' ∧
        (mode g' = "gameover"%string ∨
         (mode g' = "playing"%string ∧ current_player g' = PLAYER_O ∧
          ai_delay_until g' = (now + 340)%Z ∧
          ∀ now' rnd, (now' < now + 340)%Z → ai_turn g' now' rnd = Ok g')).
Proof. apply click_then_wait. Qed.

Lemma engine_waits_340_ticks_witness :
  ∃ g', handle_click_board (play [PvAI]) 1000 (Some (1, 1)%Z) = Ok g' ∧
        (mode g' = "gameover"%string ∨
         (mode g' = "playing"%string ∧ current_player g' = PLAYER_O ∧
          ai_delay_until g' = 1340%Z ∧
          ∀ now' rnd, (now' < 1340)%Z → ai_turn g' now' rnd = Ok g')).
Proof.
  apply (engine_waits_340_ticks (play [PvAI]) 1000 1 1 (play_wf _));
    [reflexivity | reflexivity | lia | reflexivity].
Defined.

(** ** The turn controller: the engine's frame *)

Lemma engine_frame (g : Game) (now : Z) (rnd : Rand) :
  wf_game g → vs_ai g = true → mode g = "playing"%string →
  current_player g = PLAYER_O → (ai_delay_until g ≤ now)%Z →
  ∃ g' i,
    ai_turn g now rnd = Ok g' ∧
    best_move (ai g) rnd (cells (board g)) = Ok (Some i) ∧
    i < 9 ∧ cells (board g) !! i = Some None ∧
    cells (board g') = <[i := Some PLAYER_O]> (cells (board g)) ∧
    last_move_time g' = now ∧
    ((in_progress (cells (board g')) ∧ mode g' = "playing"%string ∧
      current_player g' = PLAYER_X ∧ scores g' = scores g) ∨
     (¬ in_progress (cells (board g')) ∧ mode g' = "gameover"%string)).
Proof.
  intros Hwf Hvs Hmode Hcur Hnow.
  pose proof Hwf as (Hl & _ & _ & _ & _ & Hs & Hp).
  destruct (best_move_in_progress (ai g) rnd (cells (board g)) Hl
              (wf_marks_only g Hwf) (Hp Hmode)) as (i & Hi & Hi9 & Hempty).
  destruct (ai_turn_total g now rnd Hl Hs) as [g' Hg'].
  exists g', i. split; [done|].
  apply ai_turn_cases in Hg'
    as [[_ [? | [? | [? | ?]]]]
       | (_ & _ & _ & _ & move & Hbm & _ & Hcells & _ & _ & Hlast & _ & Hres)];
    [congruence | done | done | lia | | done].
  rewrite Hi in Hbm. injection Hbm as <-.
  repeat (split; [done|]).
  destruct Hres as [(Hin & Hm' & Hsc & Hcur')
                   | (w & combo & v & Hw & Hm' & _)].
  - left. by repeat split.
  - right. split; [|done]. unfold in_progress. by rewrite Hw.
Qed.

(** X11. When it is the engine's turn in a round against it and the delay
    has passed, one frame makes exactly one move: [ai_turn] places O in the
    empty cell [best_move] returns, which exists at every difficulty, stamps
    the move time, and either hands the turn back to X with the scores
    untouched or ends the round. *)
Theorem engine_frame_makes_one_move (g : Game) (now : Z) (rnd : Rand) :
  wf_game g → vs_ai g = true → mode g = "playing"%string →
  current_player g = PLAYER_O → (ai_delay_until g ≤ now)%Z →
  ∃ g' i,
    ai_turn g now rnd = Ok g' ∧
    best_move (ai g) rnd (cells (board g)) = Ok (Some i) ∧
    i < 9 ∧ cells (board g) !! i = Some None ∧
    cells (board g') = <[i := Some PLAYER_O]> (cells (board g)) ∧
    last_move_time g' = now ∧
    ((in_progress (cells (board g')) ∧ mode g' = "playing"%string ∧
      current_player g' = PLAYER_X ∧ scores g' = scores g) ∨
     (¬ in_progress (cells (board g')) ∧ mode g' = "gameover"%string)).
Proof. apply engine_frame. Qed.

Lemma engine_frame_makes_one_move_witness :
  ∃ g' i,
    ai_turn (play [PvAI; Click 1000 (Some (1, 1)%Z)]) 1340 rnd0 = Ok g' ∧
    best_move impossible_ai rnd0
      [None; None; None; None; X; None; None; None; None] = Ok (Some i) ∧
    cells (board g')
    = <[i := O]> [None; None; None; None; X; None; None; None; None].
Proof.
  destruct (engine_frame_makes_one_move
              (play [PvAI; Click 1000 (Some (1, 1)%Z)]) 1340 rnd0 (play_wf _))
    as (g' & i & Hg' & Hbm & _ & _ & Hcells & _);
    [reflexivity | reflexivity | reflexivity | vm_compute; discriminate|].
  exists g', i. split; [exact Hg'|]. split; [exact Hbm | exact Hcells].
Defined.

(** ** The turn controller: two players *)

Lemma count_mark_insert (cs : list cell) (i : nat) (m m' : string) :
  cs !! i = Some None →
  count_mark (<[i := Some m]> cs) m'
  = if decide (m' = m) then S (count_mark cs m') else count_mark cs m'.
Proof.
  intros Hi. unfold count_mark.
  rewrite insert_take_drop by (by eapply lookup_lt_Some).
  pose proof (take_drop_middle cs i None Hi) as Hcs.
  remember (take i cs) as a. remember (drop (S i) cs) as b.
  rewrite <- Hcs. rewrite !filter_app, !filter_cons, !length_app.
  rewrite (decide_False (P := None = Some m')) by done.
  destruct (decide (m' = m)) as [->|Hne].
  - rewrite decide_True by done. cbn [length]. lia.
  - rewrite decide_False by congruence. done.
Qed.

Lemma ai_turn_no_engine (g : Game) (now : Z) (rnd : Rand) :
  vs_ai g = false → ai_turn g now rnd = Ok g.
Proof. intros Hvs. unfold ai_turn. by rewrite Hvs. Qed.

Lemma count_mark_fresh (m : string) : count_mark (replicate 9 None) m = 0.
Proof. reflexivity. Qed.

Lemma two_player_fresh (g : Game) :
  cells (board g) = replicate 9 None → current_player g = PLAYER_X →
  vs_ai g = false → two_player_inv g.
Proof.
  intros Hc Hcur Hvs. unfold two_player_inv, turn_matches_board.
  rewrite Hc, Hcur, !count_mark_fresh. split; [done|]. split; [lia|].
  split; [lia|]. intros _. by left.
Qed.

Lemma two_player_step (g g' : Game) (i : input) :
  i ≠ PvAI → two_player_inv g → step g i = Ok g' → two_player_inv g'.
Proof.
  intros Hi (Hvs & Hlo & Hhi & Hturn) Hstep.
  destruct i as [now hit | now rnd | | | |]; cbn [step] in Hstep; [| | | | |done].
  - apply click_cases in Hstep
      as [[-> _] | (col & row & _ & Hmode & _ & Hempty & Hcells & _ & Hvs'
                    & _ & Hres)]; [done|].
    unfold two_player_inv, turn_matches_board.
    rewrite Hcells, Hvs', !(count_mark_insert _ _ _ _ Hempty).
    split; [done|].
    assert (mode g' = "playing"%string →
            current_player g'
            = if String.eqb (current_player g) PLAYER_X then PLAYER_O
              else PLAYER_X) as Hcur'.
    { destruct Hres as [(_ & _ & _ & Hc & _) | (w & combo & v & _ & Hm' & _)];
        [by rewrite Hvs in Hc | by rewrite Hm']. }
    destruct (Hturn Hmode) as [[Hcur Heq] | [Hcur Heq]]; rewrite Hcur in *;
      cbn in Hcur'; repeat case_decide; try done.
    + split; [lia|]. split; [lia|]. intros Hm'. right. split; [exact (Hcur' Hm') | lia].
    + split; [lia|]. split; [lia|]. intros Hm'. left. split; [exact (Hcur' Hm') | lia].
  - rewrite ai_turn_no_engine in Hstep by done. injection Hstep as <-.
    by repeat split.
  - injection Hstep as <-. by apply two_player_fresh.
  - injection Hstep as <-. by repeat split.
  - injection Hstep as <-. by apply two_player_fresh.
Qed.

Lemma two_player_steps (inputs : list input) :
  ∀ g g', Forall (λ i, i ≠ PvAI) inputs → two_player_inv g →
          steps g inputs = Ok g' → two_player_inv g'.
Proof.
  induction inputs as [|i rest IH]; intros g g' Hin Hinv Hsteps;
    [by injection Hsteps as <-|].
  apply Forall_cons in Hin as [Hi Hrest]. cbn [steps] in Hsteps.
  destruct (step g i) as [g1|] eqn:Hstep; [|done].
  cbn [mbind result_bind] in Hsteps.
  apply (IH g1 g' Hrest); [|done]. by apply (two_player_step g g1 i).
Qed.

Lemma two_player_game (g0 : Game) (inputs : list input) :
  wf_game g0 → Forall (λ i, i ≠ PvAI) inputs →
  ∃ g, steps (set_pvp g0) inputs = Ok g ∧ two_player_inv g.
Proof.
  intros Hwf Hin.
  destruct (steps_wf inputs (set_pvp g0)) as (g & Hg & _);
    [by apply set_mode_vs_wf|].
  exists g. split; [done|].
  apply (two_player_steps inputs (set_pvp g0) g); [done | | done].
  by apply two_player_fresh.
Qed.

(** X12. In a two-player game the marks alternate.  After [set_pvp],
    whatever clicks, frames, restarts and returns to the menu follow, short
    of choosing the engine, the board never holds fewer X than O nor two X
    more, and while a round is played the turn agrees with the board: X is
    to move when the counts are equal, O when X is one ahead. *)
Theorem two_player_marks_alternate (g0 : Game) (inputs : list input) :
  wf_game g0 → Forall (λ i, i ≠ PvAI) inputs →
  ∃ g, steps (set_pvp g0) inputs = Ok g ∧ two_player_inv g.
Proof. apply two_player_game. Qed.

Lemma two_player_marks_alternate_witness :
  ∃ g, steps (set_pvp Game_init)
         [Click 1 (Some (1, 1)%Z); Tick 2 rnd0; Click 3 (Some (1, 1)%Z);
          Click 4 (Some (0, 0)%Z); Click 5 (Some (2, 2)%Z)] = Ok g ∧
       two_player_inv g.
Proof.
  apply (two_player_marks_alternate Game_init _ Game_init_wf).
  repeat (constructor; [discriminate|]). constructor.
Defined.

(** ** A session against the engine *)

Lemma no_point_for_X (fuel : nat) (t : bool) (cs : list cell) (w : string)
    (combo : option triple) :
  check fuel t cs = true → winner cs = Ok (Some w, combo) →
  score_key w ≠ "Player"%string.
Proof.
  intros Hc Hw. apply check_pos_ok in Hc. unfold pos_ok in Hc.
  apply andb_true_iff in Hc as [Hc _].
  apply andb_true_iff in Hc as [_ Hres].
  apply result_ok_true in Hres as [Hr | [Hr | [tr Hr]]];
    rewrite Hw in Hr; [done | |]; by injection Hr as -> _.
Qed.

Lemma no_triple_of_X (fuel : nat) (t : bool) (cs : list cell) (tr : triple) :
  check fuel t cs = true → tr ∈ WIN_COMBINATIONS → ¬ uniform cs tr PLAYER_X.
Proof.
  intros Hc. apply check_pos_ok in Hc. unfold pos_ok in Hc.
  apply andb_true_iff in Hc as [Hc _].
  apply andb_true_iff in Hc as [Hx _]. apply negb_true_iff in Hx.
  by apply has_triple_false.
Qed.

Lemma in_progress_is_in_progress (cs : list cell) :
  in_progress cs → is_in_progress cs = true.
Proof. unfold in_progress, is_in_progress. by intros ->. Qed.

Lemma engine_inv_fresh (g : Game) :
  wf_game g → vs_ai g = true → ai g = impossible_ai →
  cells (board g) = replicate 9 None → current_player g = PLAYER_X →
  engine_inv g.
Proof.
  intros Hwf Hvs Hai Hc Hcur. repeat (split; [done|]).
  exists 10, false. rewrite Hc. split; [apply check_all_games | done].
Qed.

Lemma engine_inv_step (g g' : Game) (i : input) :
  engine_inv g → by_the_turn g i = true → step g i = Ok g' →
  engine_inv g' ∧ scores g' !! "Player"%string = scores g !! "Player"%string.
Proof.
  intros (Hwf & Hvs & Hai & fuel & t & Hc & Hturn) Hi Hstep.
  pose proof Hwf as (Hl & _ & _ & _ & _ & _ & Hp).
  destruct i as [now hit | now rnd | | | |]; cbn [step] in Hstep;
    cbn [by_the_turn] in Hi; [| | | |done|].
  - pose proof (click_wf _ _ _ _ Hwf Hstep) as Hwf'.
    apply click_cases in Hstep
      as [[-> _] | (col & row & _ & Hmode & Hidx & Hempty & Hcells & Hai'
                    & Hvs' & _ & Hres)];
      [split; [|done]; repeat (split; [done|]); by exists fuel, t|].
    apply String.eqb_eq in Hi. specialize (Hturn Hmode).
    destruct t; [by rewrite Hi in Hturn|].
    destruct (check_continues _ _ _ Hc
                (in_progress_is_in_progress _ (Hp Hmode)))
      as (fuel' & -> & Hnext).
    specialize (Hnext (Z.to_nat (row * 3 + col)) ltac:(lia) Hempty).
    rewrite Hi in Hcells. rewrite <- Hcells in Hnext. split.
    + split; [done|]. split; [congruence|]. split; [congruence|].
      exists fuel', true. split; [done|]. intros Hm'.
      destruct Hres as [(_ & _ & _ & Hcur & _) | (w & combo & v & _ & Hg & _)];
        [by rewrite Hvs in Hcur | by rewrite Hg in Hm'].
    + destruct Hres as [(_ & _ & -> & _)
                       | (w & combo & v & Hw & _ & _ & _ & _ & _ & ->)];
        [done|].
      apply lookup_insert_ne. by apply (no_point_for_X fuel' true (cells (board g')) w combo).
  - pose proof (ai_turn_wf _ _ _ _ Hwf Hstep) as Hwf'.
    apply ai_turn_cases in Hstep
      as [[-> _] | (_ & Hmode & Hcur & _ & move & Hbm & _ & Hcells & Hai'
                    & Hvs' & _ & _ & Hres)];
      [split; [|done]; repeat (split; [done|]); by exists fuel, t | | done].
    specialize (Hturn Hmode).
    destruct t; [|by rewrite Hcur in Hturn].
    destruct (check_continues _ _ _ Hc
                (in_progress_is_in_progress _ (Hp Hmode)))
      as (fuel' & -> & Hnext).
    rewrite Hai, (best_move_impossible_rnd rnd rnd0) in Hbm.
    rewrite Hbm in Hnext. destruct move as [j|]; [|done].
    rewrite <- Hcells in Hnext. split.
    + split; [done|]. split; [congruence|]. split; [congruence|].
      exists fuel', false. split; [done|]. intros Hm'.
      destruct Hres as [(_ & _ & _ & Hcur') | (w & combo & v & _ & Hg & _)];
        [done | by rewrite Hg in Hm'].
    + destruct Hres as [(_ & _ & -> & _)
                       | (w & combo & v & Hw & _ & _ & _ & _ & ->)];
        [done|].
      apply lookup_insert_ne. by apply (no_point_for_X fuel' false (cells (board g')) w combo).
  - injection Hstep as <-. split; [|done].
    apply engine_inv_fresh; [by apply reset_game_wf | done..].
  - injection Hstep as <-. split; [|done].
    split; [by apply open_menu_wf|]. repeat (split; [done|]).
    exists fuel, t. split; [done|]. done.
  - injection Hstep as <-. split; [|done].
    apply engine_inv_fresh; [by apply set_mode_vs_wf | done..].
Qed.

Lemma engine_inv_steps (inputs : list input) :
  ∀ g, engine_inv g → played_by_the_turn g inputs →
       ∃ g', steps g inputs = Ok g' ∧ engine_inv g' ∧
             scores g' !! "Player"%string = scores g !! "Player"%string.
Proof.
  induction inputs as [|i rest IH]; intros g Hinv Hfair; [by exists g|].
  cbn [played_by_the_turn] in Hfair. destruct Hfair as [Hi Hrest].
  cbn [steps]. destruct (step g i) as [g1|] eqn:Hstep; [|done].
  destruct (engine_inv_step g g1 i Hinv Hi Hstep) as [Hinv1 Hs1].
  destruct (IH g1 Hinv1 Hrest) as (g' & Hg' & Hinv' & Hs').
  exists g'. split; [done|]. split; [done | congruence].
Qed.

Lemma session_against_engine (inputs : list input) :
  played_by_the_turn Game_init inputs →
  ∃ g, steps Game_init inputs = Ok g ∧
       scores g !! "Player"%string = Some 0%Z ∧
       ∀ tr, tr ∈ WIN_COMBINATIONS → ¬ uniform (cells (board g)) tr PLAYER_X.
Proof.
  intros Hfair.
  destruct (engine_inv_steps inputs Game_init) as (g & Hg & Hinv & Hs);
    [|done|].
  { split; [apply Game_init_wf|]. repeat (split; [done|]).
    exists 10, false. split; [apply check_all_games | done]. }
  exists g. split; [done|]. split; [by rewrite Hs|].
  destruct Hinv as (_ & _ & _ & fuel & t & Hc & _).
  intros tr. by apply (no_triple_of_X fuel t).
Qed.

(** X13. The human never scores against the engine.  From the start of the
    program, as long as the two-player mode is not chosen and every click on
    the board comes when X is to move, no handler raises, no triple of X is
    ever completed on the board and the counter ['Player'] stays 0, whatever
    the cells clicked, the ticks and the random source. *)
Theorem human_never_scores (inputs : list input) :
  played_by_the_turn Game_init inputs →
  ∃ g, steps Game_init inputs = Ok g ∧
       scores g !! "Player"%string = Some 0%Z ∧
       ∀ tr, tr ∈ WIN_COMBINATIONS → ¬ uniform (cells (board g)) tr PLAYER_X.
Proof. apply session_against_engine. Qed.

Lemma human_never_scores_witness :
  ∃ g, steps Game_init
         [PvAI; Click 0 (Some (1, 1)%Z); Tick 340 rnd0;
          Click 900 (Some (2, 0)%Z); Tick 1240 rnd0; Restart;
          Click 2000 (Some (0, 0)%Z)] = Ok g ∧
       scores g !! "Player"%string = Some 0%Z.
Proof.
  destruct (human_never_scores
              [PvAI; Click 0 (Some (1, 1)%Z); Tick 340 rnd0;
               Click 900 (Some (2, 0)%Z); Tick 1240 rnd0; Restart;
               Click 2000 (Some (0, 0)%Z)]) as (g & Hg & Hs & _).
  { vm_compute. repeat split. }
  exists g. split; [exact Hg | exact Hs].
Defined.

(** ** Who wins by a move *)

Lemma move_result (cs : list cell) (i : nat) (m w : string)
    (combo : option triple) :
  in_progress cs →
  winner (<[i := Some m]> cs) = Ok (Some w, combo) →
  match combo with
  | Some t =>
      t ∈ WIN_COMBINATIONS ∧ w = m ∧ (i = t.1.1 ∨ i = t.1.2 ∨ i = t.2)
  | None => w = "Draw"%string
  end.
Proof.
  intros Hin Hw. unfold in_progress in Hin.
  pose proof (winner_inv _ _ _ Hin) as [Hnone _].
  pose proof (winner_inv _ _ _ Hw) as Hinv. clear Hw Hin.
  destruct combo as [[[a b] c]|];
    [|by destruct Hinv as [_ [[[= ->] _] | [? _]]]].
  rename Hinv into Hw.
  destruct Hw as (Ht & m' & [= <-] & Hne & Ha & Hb & Hc). cbn in Ha, Hb, Hc.
  split; [done|]. cbn.
  apply list_lookup_insert_Some in Ha as [(-> & [= ->] & _) | [Hia Ha]];
    [auto|].
  apply list_lookup_insert_Some in Hb as [(-> & [= ->] & _) | [Hib Hb]];
    [auto|].
  apply list_lookup_insert_Some in Hc as [(-> & [= ->] & _) | [Hic Hc]];
    [auto|].
  exfalso. rewrite Forall_forall in Hnone. apply (Hnone (a, b, c) Ht).
  exists w. by repeat split.
Qed.

(** X14. A move can only win for the mark it places.  On a board without
    result, whatever the cell and the mark written, if [winner] then reports
    a triple, the triple is one of the eight, runs through the cell just
    written and belongs to the mark just placed; a result without triple is
    ['Draw']. *)
Theorem move_wins_only_for_its_mark (cs : list cell) (i : nat) (m w : string)
    (combo : option triple) :
  in_progress cs →
  winner (<[i := Some m]> cs) = Ok (Some w, combo) →
  match combo with
  | Some t =>
      t ∈ WIN_COMBINATIONS ∧ w = m ∧ (i = t.1.1 ∨ i = t.1.2 ∨ i = t.2)
  | None => w = "Draw"%string
  end.
Proof. apply move_result. Qed.

Lemma move_wins_only_for_its_mark_witness :
  (2, 4, 6) ∈ WIN_COMBINATIONS ∧ "O"%string = "O"%string ∧
  (6 = 2 ∨ 6 = 4 ∨ 6 = 6).
Proof.
  exact (move_wins_only_for_its_mark
           [X; X; O; X; O; None; None; None; None] 6 "O" "O" (Some (2, 4, 6))
           eq_refl eq_refl).
Defined.

Lemma round_result (g g' : Game) (i : input) :
  wf_game g → step g i = Ok g' → ends_round g g' →
  game_winner g' = Some "Draw"%string ∨
  game_winner g' = Some (current_player g).
Proof.
  intros Hwf Hstep [Hmode Hover].
  pose proof Hwf as (Hl & _ & _ & _ & _ & _ & Hp). specialize (Hp Hmode).
  assert (∀ m : string, m ≠ "gameover"%string → mode g' ≠ m) as Hnot
    by (intros m Hm; by rewrite Hover).
  destruct i as [now hit | now rnd | | | |]; cbn [step] in Hstep.
  - apply click_cases in Hstep
      as [[-> _] | (col & row & _ & _ & _ & _ & Hcells & _ & _ & _ & Hres)];
      [by rewrite Hmode in Hover|].
    destruct Hres as [(_ & Hm' & _) | (w & combo & v & Hw & _ & -> & _)];
      [by rewrite Hm' in Hover|].
    rewrite Hcells in Hw. apply (move_result _ _ _ _ _ Hp) in Hw.
    destruct combo as [t|]; [right | left]; [by destruct Hw as (_ & -> & _)|].
    by rewrite Hw.
  - apply ai_turn_cases in Hstep
      as [[-> _] | (_ & _ & Hcur & _ & move & _ & _ & Hcells & _ & _ & _ & _
                    & Hres)]; [by rewrite Hmode in Hover | | done].
    destruct Hres as [(_ & Hm' & _) | (w & combo & v & Hw & _ & -> & _)];
      [by rewrite Hm' in Hover|].
    rewrite Hcells in Hw. destruct move as [j|];
      [|unfold in_progress in Hp; by rewrite Hp in Hw].
    apply (move_result _ _ _ _ _ Hp) in Hw. rewrite Hcur.
    destruct combo as [t|]; [right | left]; [by destruct Hw as (_ & -> & _)|].
    by rewrite Hw.
  - injection Hstep as <-. by destruct (Hnot "playing"%string).
  - injection Hstep as <-. by destruct (Hnot "menu"%string).
  - injection Hstep as <-. by destruct (Hnot "playing"%string).
  - injection Hstep as <-. by destruct (Hnot "playing"%string).
Qed.

(** X15. A round ends in a draw or with the win of the player who moved
    last: when a handler call on a well-formed state ends the round, the
    winner it stores is ['Draw'] or the [current_player] of the state before
    the call, whose mark the call has just placed. *)
Theorem round_goes_to_the_last_mover (g g' : Game) (i : input) :
  wf_game g → step g i = Ok g' → ends_round g g' →
  game_winner g' = Some "Draw"%string ∨
  game_winner g' = Some (current_player g).
Proof. apply round_result. Qed.

Lemma round_goes_to_the_last_mover_witness :
  ∃ g', step match_point (Click 5 (Some (2, 0)%Z)) = Ok g' ∧
        (game_winner g' = Some "Draw"%string ∨ game_winner g' = Some PLAYER_X).
Proof.
  assert (∃ g', step match_point (Click 5 (Some (2, 0)%Z)) = Ok g' ∧
                mode g' = "gameover"%string) as (g' & Hstep & Hmode).
  { eexists. split; vm_compute; reflexivity. }
  exists g'. split; [exact Hstep|].
  apply (round_goes_to_the_last_mover match_point g'
           (Click 5 (Some (2, 0)%Z)) (play_wf _) Hstep).
  split; [vm_compute; reflexivity | exact Hmode].
Defined.
